(** * Rabbithole: timeline resolver, moment dispatcher, weights and discovery state

    A shallow embedding of the parts of
    [src/player/webamp-chartifacts.js] (class [WebampChartifacts]) and
    [src/state.js] (class [RabbitholeState]) that the specification's
    testable properties talk about, of the coordinator of [src/index.js]
    (class [RabbitholePlayer]) and of the connections lookup of
    [src/catalog.js] (class [StaticCatalog]), followed by the theorems.

    Conventions of the embedding.
    - A JS number is an exact rational or [NaN]; the infinities are outside
      the model.  Arithmetic is exact, so a statement that depends on the
      value of a sum, a difference or a printed number is made for numbers
      on which the doubles of the code compute exactly, and says so.
    - A JS object is the sequence of its own entries, in the order
      [Object.entries] enumerates them.  Property lookup does not consult a
      prototype, except for the catalog of [RabbitholeState], whose keys are
      made from song titles: there the names inherited from
      [Object.prototype] are found as in the code.  Timeline entries,
      arrangements and track records are objects, as the catalog's track type
      documents; reading a property of [null] or [undefined], which throws,
      is not modelled.
    - An object used as a map from times to arrangements (the [processed]
      object of [processTimelineKeys]) is kept as entries whose keys are the
      numbers that were written; two numbers name the same property when they
      are numerically equal.
    - The ambient random source and the awaited connections lookup are explicit
      inputs; observer callbacks and [localStorage] are an explicit event log
      and store. *)

From Stdlib Require Import QArith Qround Lia Lqa ZArith String Ascii List
  Permutation Sorted DecimalString.
From stdpp Require Import gmap strings.
Import ListNotations.
Open Scope string_scope.

(* ================================================================== *)
(** * Part I: definitions                                              *)
(* ================================================================== *)

(** ** JS values, numbers and objects *)

Module Js.

(** Numbers. *)
Inductive number := NaN | Num (q : Q).

Definition isNaN (a : number) : bool :=
  match a with NaN => true | Num _ => false end.

Definition num_add (a b : number) : number :=
  match a, b with Num x, Num y => Num (x + y) | _, _ => NaN end.

(** [a < b] and [a <= b]; every comparison with NaN is false. *)
Definition num_lt (a b : number) : bool :=
  match a, b with Num x, Num y => negb (Qle_bool y x) | _, _ => false end.

Definition num_le (a b : number) : bool :=
  match a, b with Num x, Num y => Qle_bool x y | _, _ => false end.

(** [Math.max] of two arguments. *)
Definition num_max (a b : number) : number :=
  match a, b with
  | Num x, Num y => Num (if Qle_bool x y then y else x)
  | _, _ => NaN
  end.

(** Two numbers used as property keys name the same property. *)
Definition same_key (a b : number) : bool :=
  match a, b with
  | NaN, NaN => true
  | Num x, Num y => Qeq_bool x y
  | _, _ => false
  end.

(** Values.  An object is its entry list. *)
#[local] Set Warnings "-register-all".
Inductive value :=
| VUndefined
| VNull
| VBool (b : bool)
| VNum (n : Q)
| VStr (s : string)
| VArr (l : list value)
| VObj (o : list (string * value)).
#[local] Set Warnings "register-all".

Abbreviation obj := (list (string * value)).

(** ToBoolean. *)
Definition truthy (v : value) : bool :=
  match v with
  | VUndefined | VNull => false
  | VBool b => b
  | VNum n => negb (Qeq_bool n 0)
  | VStr s => negb (String.eqb s "")
  | VArr _ | VObj _ => true
  end.

Definition is_undefined (v : value) : bool :=
  match v with VUndefined => true | _ => false end.

(** [v === "s"]. *)
Definition is_str (v : value) (s : string) : bool :=
  match v with VStr s' => String.eqb s' s | _ => false end.

(** [o[k]] on an entry list: the first entry named [k]. *)
Fixpoint get (o : obj) (k : string) : value :=
  match o with
  | [] => VUndefined
  | (k', v) :: o' => if String.eqb k' k then v else get o' k
  end.

(** [o[k] = v]: an existing property keeps its place, a new one goes last. *)
Fixpoint set (o : obj) (k : string) (v : value) : obj :=
  match o with
  | [] => [(k, v)]
  | (k', v') :: o' =>
      if String.eqb k' k then (k', v) :: o' else (k', v') :: set o' k v
  end.

(** [`section${i}`] and the like: a natural number in decimal. *)
Definition nat_to_string (i : nat) : string :=
  NilEmpty.string_of_uint (Nat.to_uint i).

(** [Object.entries(v)]; a value that is neither an object nor an array has
    no entries here (for a string JS would enumerate its characters). *)
Definition entries (v : value) : obj :=
  match v with
  | VObj o => o
  | VArr l => combine (map nat_to_string (seq 0 (length l))) l
  | _ => []
  end.

(** [v.k] for a value expected to be an object. *)
Definition field (v : value) (k : string) : value := get (entries v) k.

(** [{...a, ...b}]. *)
Definition spread (a b : obj) : obj :=
  fold_left (fun acc kv => set acc (fst kv) (snd kv)) b a.

(** The value the last entry of [b] named [k] gives, if there is one: what
    [{...a, ...b}] takes for [k] from [b]. *)
Definition last_field (b : obj) (k : string) : option value :=
  option_map snd (find (fun kv => String.eqb (fst kv) k) (rev b)).

(** [a === b] on primitive values; objects and arrays compare by identity,
    which the model does not keep, and are never equal here. *)
Definition strict_eq (a b : value) : bool :=
  match a, b with
  | VUndefined, VUndefined | VNull, VNull => true
  | VBool x, VBool y => Bool.eqb x y
  | VNum x, VNum y => Qeq_bool x y
  | VStr x, VStr y => String.eqb x y
  | _, _ => false
  end.

(** The number a value contributes to [acc += v].  Numbers, [null],
    booleans and [undefined] follow ToNumber; for a string or an object JS
    would concatenate, which has no counterpart here and is read as NaN. *)
Definition to_number (v : value) : number :=
  match v with
  | VNum n => Num n
  | VNull => Num 0
  | VBool b => Num (if b then 1 else 0)
  | _ => NaN
  end.

(** *** Number-keyed objects *)

Abbreviation timed := (list (number * value)).

Fixpoint tget (p : timed) (t : number) : value :=
  match p with
  | [] => VUndefined
  | (t', v) :: p' => if same_key t' t then v else tget p' t
  end.

Fixpoint tset (p : timed) (t : number) (v : value) : timed :=
  match p with
  | [] => [(t, v)]
  | (t', v') :: p' =>
      if same_key t' t then (t', v) :: p' else (t', v') :: tset p' t v
  end.

(** The key of an entry is a number, not NaN. *)
Definition timeKey {B : Type} (e : number * B) : Prop := isNaN (fst e) = false.


(** *** Reading numbers out of strings *)

Definition is_digit (c : ascii) : bool :=
  (48 <=? nat_of_ascii c)%nat && (nat_of_ascii c <=? 57)%nat.

Definition digit_val (c : ascii) : Z := Z.of_nat (nat_of_ascii c - 48).

(** The characters [\s] matches, among the ASCII ones. *)
Definition is_space (c : ascii) : bool :=
  let n := nat_of_ascii c in
  (n =? 32)%nat || ((9 <=? n)%nat && (n <=? 13)%nat).

Fixpoint take_digits (s : list ascii) : list ascii * list ascii :=
  match s with
  | c :: s' =>
      if is_digit c then let '(d, r) := take_digits s' in (c :: d, r)
      else ([], s)
  | [] => ([], [])
  end.

Definition digits_val (ds : list ascii) : Z :=
  fold_left (fun acc c => 10 * acc + digit_val c)%Z ds 0%Z.

Fixpoint skip_spaces (s : list ascii) : list ascii :=
  match s with
  | c :: s' => if is_space c then skip_spaces s' else s
  | [] => []
  end.

Definition take_sign (s : list ascii) : bool * list ascii :=
  match s with
  | "-"%char :: s' => (true, s')
  | "+"%char :: s' => (false, s')
  | _ => (false, s)
  end.

(** [10^e] as a rational, for any integer [e]. *)
Definition pow10 (e : Z) : Q :=
  match e with
  | Zneg p => 1 # (10 ^ p)
  | _ => inject_Z (10 ^ e)
  end.

(** The longest prefix that is a decimal literal
    ([sign? digits? (. digits?)? (e sign? digits)?], at least one digit in
    the mantissa), with its value and the unread rest. *)
Definition read_decimal (s : list ascii) : option (Q * list ascii) :=
  let '(neg, s1) := take_sign s in
  let '(ip, s2) := take_digits s1 in
  let '(fp, s3) :=
    match s2 with
    | "."%char :: s2' => take_digits s2'
    | _ => ([], s2)
    end in
  match ip, fp with
  | [], [] => None
  | _, _ =>
      let mant :=
        (inject_Z (digits_val (ip ++ fp)) / pow10 (Z.of_nat (length fp)))%Q in
      let '(ex, s4) :=
        match s3 with
        | c :: s3' =>
            if (Ascii.eqb c "e" || Ascii.eqb c "E")%bool then
              let '(eneg, s3a) := take_sign s3' in
              let '(ed, s3b) := take_digits s3a in
              match ed with
              | [] => (0%Z, s3)
              | _ => ((if eneg then - digits_val ed else digits_val ed)%Z, s3b)
              end
            else (0%Z, s3)
        | [] => (0%Z, s3)
        end in
      let q := Qred (mant * pow10 ex)%Q in
      Some ((if neg then - q else q)%Q, s4)
  end.

(** [parseFloat(s)]: leading blanks skipped, trailing text ignored.
    (The literal [Infinity] and anything beyond ASCII are not modelled.) *)
Definition parseFloat (s : string) : number :=
  match read_decimal (skip_spaces (list_ascii_of_string s)) with
  | Some (q, _) => Num q
  | None => NaN
  end.

(** [Number(s)]: the whole string, blanks trimmed, must be a decimal
    literal; the empty string is 0.  (Hexadecimal, octal and binary literals
    and [Infinity] are not modelled.) *)
Definition Number (s : string) : number :=
  match skip_spaces (list_ascii_of_string s) with
  | [] => Num 0
  | s' =>
      match read_decimal s' with
      | Some (q, r) => match skip_spaces r with [] => Num q | _ => NaN end
      | None => NaN
      end
  end.

(** The strings that are the result of converting a number to a property
    key in plain decimal notation: [-]digits[.digits], no superfluous zero
    at either end, no sign on zero.  A number is printed with the fewest
    digits that give the double back: a spelling of this form with at most 15
    digits is the printed form of its number; longer spellings, and numbers
    that JS prints with an exponent (below [0.000001], or from [10^21]), are
    not modelled. *)
Definition canonical_key (k : string) : bool :=
  let s := list_ascii_of_string k in
  let '(neg, s1) := match s with "-"%char :: s' => (true, s') | _ => (false, s) end in
  let '(ip, s2) := take_digits s1 in
  let int_ok :=
    match ip with
    | [] => false
    | "0"%char :: _ :: _ => false
    | _ => true
    end in
  let frac_ok :=
    match s2 with
    | [] => negb (neg && (digits_val ip =? 0)%Z)
    | "."%char :: s2' =>
        let '(fp, s3) := take_digits s2' in
        match s3, rev fp with
        | [], c :: _ => negb (Ascii.eqb c "0")
        | _, _ => false
        end
    | _ => false
    end in
  int_ok && frac_ok.

(** [o[t]] for a number [t] on a string-keyed object: the property named by
    the decimal spelling of [t]. *)
Fixpoint get_num (o : obj) (t : Q) : value :=
  match o with
  | [] => VUndefined
  | (k, v) :: o' =>
      if canonical_key k && same_key (Number k) (Num t) then v else get_num o' t
  end.

(** [`section${i}`]. *)
Definition section_key (i : nat) : string := "section" ++ nat_to_string i.

(** *** Sorting

    [xs.sort(cmp)] is stable; [after a b] says that the comparator puts [a]
    behind [b] ([cmp(a, b) > 0]). *)
Section Sort.
Context {A : Type} (after : A -> A -> bool).

Fixpoint insert_sorted (x : A) (l : list A) : list A :=
  match l with
  | [] => [x]
  | y :: l' => if after x y then y :: insert_sorted x l' else x :: l
  end.

Fixpoint sort (l : list A) : list A :=
  match l with
  | [] => []
  | x :: l' => insert_sorted x (sort l')
  end.
End Sort.

End Js.

(** ** The player: [WebampChartifacts] (src/player/webamp-chartifacts.js) *)

Module Player.
Import Js.

(** The fields of a track record the player reads. *)
Record TrackData := {
  ensemble : obj;               (* musician name -> instruments *)
  timeline : obj;               (* key -> arrangement *)
  standardSectionLength : value (* [VUndefined] when absent *)
}.

(** *** [processTimelineKeys]

    The memo field [_processedTimeline] holds the value of this function for
    the current [trackData] and is reset whenever [trackData] is assigned
    ([loadNewSong]); it is not modelled. *)

(** The first loop: every key that does not start with [section] is an
    explicit time. *)
Definition explicitEntries (tr : TrackData) : obj :=
  List.filter (fun kv => negb (String.prefix "section" (fst kv))) (timeline tr).

Definition explicitTimes (tr : TrackData) : list number :=
  map (fun kv => parseFloat (fst kv)) (explicitEntries tr).

Definition processedExplicit (tr : TrackData) : timed :=
  fold_left (fun processed kv => tset processed (parseFloat (fst kv)) (snd kv))
            (explicitEntries tr) [].

(** [explicitTimes.length > 0 ? Math.max(...explicitTimes) : 0] *)
Definition maxExplicitTime (tr : TrackData) : number :=
  match explicitTimes tr with
  | [] => Num 0
  | t :: ts => fold_left num_max ts t
  end.

(** The key of an entry is numeric: [!isNaN(parseFloat(key))]. *)
Definition numericKey (kv : string * value) : bool :=
  negb (isNaN (parseFloat (fst kv))).

(** The two objects a section's entries are split into. *)
Definition baseSectionData (sectionData : value) : obj :=
  fold_left (fun base kv =>
               if numericKey kv then base else set base (fst kv) (snd kv))
            (entries sectionData) [].

Definition subMoments (sectionData : value) : obj :=
  fold_left (fun subs kv =>
               if numericKey kv then set subs (fst kv) (snd kv) else subs)
            (entries sectionData) [].

(** [{ ...baseSectionData, ...momentData, _isSubMoment: true }] *)
Definition subMomentEntry (base : obj) (momentData : value) : value :=
  VObj (set (spread base (entries momentData)) "_isSubMoment" (VBool true)).

(** [{ ...baseSectionData, _isSectionStart: true }] *)
Definition sectionStartEntry (base : obj) : value :=
  VObj (set base "_isSectionStart" (VBool true)).

(** [sectionData.length !== undefined ? sectionData.length
                                       : this.trackData.standardSectionLength] *)
Definition sectionLength (tr : TrackData) (sectionData : value) : value :=
  if negb (is_undefined (field sectionData "length"))
  then field sectionData "length"
  else standardSectionLength tr.

Definition writeSubMoments (base : obj) (subs : obj) (processed : timed) : timed :=
  fold_left (fun processed kv =>
               tset processed (parseFloat (fst kv)) (subMomentEntry base (snd kv)))
            subs processed.

(** One turn of [for (let i = 1; i <= 20; i++)], on the pair
    [(accumulatedTime, processed)].  The sum is the exact one: it is the sum
    the code computes when the cursor and the length are whole numbers below
    [2^53] (see [wholeTime]); a length that is a string or an object, which
    the code would concatenate, is read as NaN and is outside the model. *)
Definition sectionStep (tr : TrackData) (st : number * timed) (i : nat)
  : number * timed :=
  let '(accumulatedTime, processed) := st in
  let sectionData := get (timeline tr) (section_key i) in
  if truthy sectionData then
    let accumulatedTime := num_add accumulatedTime (to_number (sectionLength tr sectionData)) in
    let sectionStartTime := accumulatedTime in
    let base := baseSectionData sectionData in
    let processed := writeSubMoments base (subMoments sectionData) processed in
    let processed := tset processed sectionStartTime (sectionStartEntry base) in
    (accumulatedTime, processed)
  else st.

(** The loop after its first [n] turns. *)
Definition sectionLoop (tr : TrackData) (n : nat) : number * timed :=
  fold_left (sectionStep tr) (seq 1 n) (maxExplicitTime tr, processedExplicit tr).





(** The result, as the entries every caller reads: each key as the number
    [Number(timeStr)] it denotes. *)
Definition processTimelineKeys (tr : TrackData) : timed :=
  if negb (truthy (standardSectionLength tr)) then
    map (fun kv => (Number (fst kv), snd kv)) (timeline tr)
  else snd (sectionLoop tr 20).

(** *** [extractSongParts] (the memo [_cachedSongParts] is not modelled) *)

(** [.sort((a, b) => a.time - b.time)] *)
Definition byTime (p : timed) : timed :=
  sort (fun a b => num_lt (fst b) (fst a)) p.

(** [arrangement.part && (arrangement._isSectionStart || !arrangement._isSubMoment)] *)
Definition countsAsPart (arrangement : value) : bool :=
  truthy (field arrangement "part")
  && (truthy (field arrangement "_isSectionStart")
      || negb (truthy (field arrangement "_isSubMoment"))).

Definition extractSongParts (tr : TrackData) : list value :=
  map (fun e => field (snd e) "part")
      (List.filter (fun e => countsAsPart (snd e)) (byTime (processTimelineKeys tr))).

(** *** [extractMomentTimes] *)

(** [Object.values(musicians).some(status => status === "in" || status === "out")] *)
Definition hasMusiciansChanging (musicians : value) : bool :=
  existsb (fun kv => is_str (snd kv) "in" || is_str (snd kv) "out") (entries musicians).

(** An entry announces a change of who is playing: some musician or the
    band is set to ["in"] or ["out"], or the legacy [detail] is ["band-in"]. *)
Definition momentWorthy (arrangement : value) : bool :=
  let musicians := field arrangement "musicians" in
  (truthy musicians
   && (is_str (field musicians "band") "in" || is_str (field musicians "band") "out"
       || hasMusiciansChanging musicians))
  || is_str (field arrangement "detail") "band-in".

(** The pushes one timeline entry makes.  Both guards of the source test
    [time > 0], which is false for NaN. *)
Definition momentsOfEntry (timeStr : string) (arrangement : value) : list Q :=
  match Number timeStr with
  | NaN => []
  | Num time =>
      let musicians := field arrangement "musicians" in
      (if truthy musicians && num_lt (Num 0) (Num time) then
         if is_str (field musicians "band") "in" || is_str (field musicians "band") "out"
         then [time]
         else if hasMusiciansChanging musicians then [time] else []
       else [])
      ++
      (if is_str (field arrangement "detail") "band-in" && num_lt (Num 0) (Num time)
       then [time] else [])
  end.

(** [return momentTimes.sort((a, b) => a - b)] *)
Definition extractMomentTimes (tr : TrackData) : list Q :=
  sort (fun a b => negb (Qle_bool a b))
       (flat_map (fun kv => momentsOfEntry (fst kv) (snd kv)) (timeline tr)).

(** *** [checkForMoments] and [triggerMoment] *)

Inductive Flash :=
| FlashEntireEnsemble
| FlashSpecificMusician (musicianName : string).

Definition triggerMoment (tr : TrackData) (momentTime : Q) : list Flash :=
  let arrangement := get_num (timeline tr) momentTime in
  if negb (truthy arrangement) then []
  else
    let musicians := field arrangement "musicians" in
    (if truthy musicians then
       if is_str (field musicians "band") "in" then [FlashEntireEnsemble]
       else if is_str (field musicians "band") "out" then [FlashEntireEnsemble]
       else flat_map (fun kv =>
                        if is_str (snd kv) "in" then [FlashSpecificMusician (fst kv)]
                        else if is_str (snd kv) "out" then [FlashSpecificMusician (fst kv)]
                        else [])
                     (entries musicians)
     else [])
    ++
    (if is_str (field arrangement "detail") "band-in" then [FlashEntireEnsemble] else []).

(** The three buckets of one tick.  The difference is the exact one: it is
    the difference the code computes when both times are whole multiples of
    one power of two (whole or half seconds, for instance) and less than
    [2^53] of these units. *)
Definition momentsNotYetReached (currentTime : Q) (upcoming : list Q) : list Q :=
  List.filter (fun momentTime => negb (Qle_bool 0 (currentTime - momentTime))) upcoming.

Definition momentsToTrigger (currentTime : Q) (upcoming : list Q) : list Q :=
  List.filter (fun momentTime =>
            Qle_bool 0 (currentTime - momentTime)
            && Qle_bool (currentTime - momentTime) 1) upcoming.

Definition momentsMissedAndNeedCulling (currentTime : Q) (upcoming : list Q) : list Q :=
  List.filter (fun momentTime =>
            Qle_bool 0 (currentTime - momentTime)
            && negb (Qle_bool (currentTime - momentTime) 1)) upcoming.

(** One call: the moments handed to [triggerMoment], in order, and the new
    [upcomingMomentTimes]. *)
Definition checkForMoments (currentTime : Q) (upcoming : list Q)
  : list Q * list Q :=
  (momentsToTrigger currentTime upcoming, momentsNotYetReached currentTime upcoming).

(** A run of polling ticks: what each tick triggered, and what is still
    upcoming at the end. *)
Fixpoint poll (ticks : list Q) (upcoming : list Q) : list (list Q) * list Q :=
  match ticks with
  | [] => ([], upcoming)
  | currentTime :: ticks' =>
      let '(fired, upcoming') := checkForMoments currentTime upcoming in
      let '(later, final) := poll ticks' upcoming' in
      (fired :: later, final)
  end.

(** Every moment handed to [triggerMoment] during a run, in order. *)
Definition triggered (ticks : list Q) (upcoming : list Q) : list Q :=
  concat (fst (poll ticks upcoming)).

(** The flashes of a run: [triggerMoment] on each moment triggered. *)
Definition flashes (tr : TrackData) (ticks : list Q) (upcoming : list Q) : list Flash :=
  flat_map (triggerMoment tr) (triggered ticks upcoming).

(** How many entries of a list are the time [m]. *)
Definition occurrences (m : Q) (l : list Q) : nat :=
  length (List.filter (Qeq_bool m) l).

(** *** Weights *)

(** [initializeMusicianWeights]: 100, 110, 120, ... along
    [Object.keys(ensemble)]. *)
Definition initializeMusicianWeights (tr : TrackData) : gmap string Q :=
  fst (fold_left (fun st kv =>
                    let '(weights, baseWeight) := st in
                    (<[fst kv := baseWeight]> weights, baseWeight + 10)%Q)
                 (ensemble tr) (∅, 100%Q)).

(** [recentSoloists.indexOf(name)] *)
Fixpoint indexOf (l : list string) (name : string) : option nat :=
  match l with
  | [] => None
  | x :: l' =>
      if String.eqb x name then Some 0%nat
      else option_map S (indexOf l' name)
  end.

(** [addRecentSoloist] *)
Definition addRecentSoloist (recentSoloists : list string) (musicianName : string)
  : list string :=
  firstn 3 (musicianName :: List.filter (fun name => negb (String.eqb name musicianName))
                                   recentSoloists).

Definition calculatePickupWeight (tr : TrackData) (musicianName : string)
           (currentTime : Q) : number :=
  let timelineEntries :=
    sort (fun a b => num_lt (fst a) (fst b)) (processTimelineKeys tr) in
  match find (fun entry =>
                num_le (fst entry) (Num currentTime)
                && is_str (field (snd entry) "soloist") musicianName
                && is_str (field (snd entry) "type") "pick up")
             timelineEntries with
  | Some (Num time, _) =>
      let pickupDuration := (currentTime - time)%Q in
      let ratio := (pickupDuration / 5)%Q in
      let progressRatio := if Qle_bool ratio 1 then ratio else 1%Q in
      Num (5 - progressRatio * 3)
  | _ => Num 5
  end.

(** [features ? features[musicianName] : null], with
    [features = arrangement ? arrangement.feature : null]. *)
Definition musicianScene (arrangement : value) (musicianName : string) : value :=
  let features := if truthy arrangement then field arrangement "feature" else VNull in
  if truthy features then field features musicianName else VNull.

Definition calculateDynamicWeight (tr : TrackData) (musicianWeights : gmap string Q)
           (recentSoloists : list string)
           (musicianName : string) (currentTime : Q) (arrangement : value) : number :=
  let scene := musicianScene arrangement musicianName in
  if truthy scene then
    if is_str scene "lead" then Num 1
    else if is_str scene "pickup" then calculatePickupWeight tr musicianName currentTime
    else if is_str scene "cooldown" then Num 5
    else if is_str scene "harmony" then Num 7
    else if is_str scene "rhythm" then Num 8
    else Num 6
  else
    let soloMusician := if truthy arrangement then field arrangement "solo" else VNull in
    let pickupMusician := if truthy arrangement then field arrangement "pickup" else VNull in
    if is_str soloMusician musicianName then Num 1
    else if is_str pickupMusician musicianName then
      calculatePickupWeight tr musicianName currentTime
    else
      match indexOf recentSoloists musicianName with
      | Some recentSoloistIndex => Num (10 + inject_Z (Z.of_nat recentSoloistIndex))
      | None =>
          match musicianWeights !! musicianName with
          | Some baseWeight =>
              Num (baseWeight + inject_Z (Z.of_nat (length recentSoloists)) * 5)
          | None => NaN
          end
      end.

(** *** [getMusicianStatus] *)

(** The body of [for (const { time, arrangement } of timelineEntries)]. *)
Fixpoint statusWalk (timelineEntries : timed) (musicianName : string)
         (currentTime : Q) (status : value) : value :=
  match timelineEntries with
  | [] => status
  | (time, arrangement) :: rest =>
      if num_lt (Num currentTime) time then status
      else
        let musicians := field arrangement "musicians" in
        let status :=
          if is_str (field musicians "band") "in" then VStr "in"
          else if is_str (field musicians "band") "out" then VStr "out"
          else if truthy (field musicians musicianName) then field musicians musicianName
          else status in
        statusWalk rest musicianName currentTime status
  end.

Definition getMusicianStatus (tr : TrackData) (musicianName : string)
           (currentTime : Q) : value :=
  statusWalk
    (byTime (List.filter (fun e => truthy (field (snd e) "musicians"))
                    (processTimelineKeys tr)))
    musicianName currentTime (VStr "out").

(** [const currentSolo = arrangement ? (arrangement.solo || arrangement.soloist) : null]
    in [updateEnsembleDisplay]: the musician shown as the lead. *)
Definition currentSolo (arrangement : value) : value :=
  if truthy arrangement then
    if truthy (field arrangement "solo") then field arrangement "solo"
    else field arrangement "soloist"
  else VNull.

(** *** [getCurrentArrangement] *)

(** [processedTimeline[t]] for a number [t].  Without
    [standardSectionLength] the object is the raw timeline, whose keys are
    strings as written, and the property read is the one spelled like [t]. *)
Definition processedAt (tr : TrackData) (t : Q) : value :=
  if negb (truthy (standardSectionLength tr)) then get_num (timeline tr) t
  else tget (processTimelineKeys tr) (Num t).

(** [Object.keys(processedTimeline).map(Number).sort((a, b) => b - a)] *)
Definition startTimes (tr : TrackData) : list number :=
  sort (fun a b => num_lt a b) (map fst (processTimelineKeys tr)).

(** When [find] gives [undefined] the property read is the one named
    ["undefined"], which only a raw timeline can have. *)
Definition getCurrentArrangement (tr : TrackData) (currentTime : Q) : value :=
  match find (fun time => num_le time (Num currentTime)) (startTimes tr) with
  | Some (Num currentStartTime) => processedAt tr currentStartTime
  | _ =>
      if negb (truthy (standardSectionLength tr)) then get (timeline tr) "undefined"
      else VUndefined
  end.

(** *** [getCurrentPartIndex]; [currentTime] is what [getCurrentTime()]
    returns. *)

(** [.filter(...).sort((a, b) => a.time - b.time)] *)
Definition partEntries (tr : TrackData) : timed :=
  byTime (List.filter (fun e => countsAsPart (snd e)) (processTimelineKeys tr)).

Definition getCurrentPartIndex (tr : TrackData) (currentTime : Q) : Z :=
  fold_left (fun activePartIndex ie =>
               if num_le (fst (snd ie)) (Num currentTime)
               then Z.of_nat (fst ie) else activePartIndex)
            (combine (seq 0 (length (partEntries tr))) (partEntries tr))
            (-1)%Z.

(** *** [getCurrentInstruments] *)

(** [Array.isArray(x) ? x[0] : x] *)
Definition primaryInstrument (musicianInstruments : value) : value :=
  match musicianInstruments with
  | VArr (first :: _) => first
  | VArr [] => VUndefined
  | v => v
  end.

Definition defaultInstruments (tr : TrackData) : obj :=
  fold_left (fun instruments kv => set instruments (fst kv) (primaryInstrument (snd kv)))
            (ensemble tr) [].

Definition getCurrentInstruments (tr : TrackData) (currentTime : Q) : obj :=
  let arrangement := getCurrentArrangement tr currentTime in
  if truthy arrangement && truthy (field arrangement "instrumentChanges") then
    fold_left (fun instruments kv => set instruments (fst kv) (snd kv))
              (entries (field arrangement "instrumentChanges"))
              (defaultInstruments tr)
  else defaultInstruments tr.

(** The musician is featured in the arrangement, as
    [calculateDynamicWeight] sees it: a feature scene, or named by [solo] or
    by [pickup]. *)
Definition featured (arrangement : value) (musicianName : string) : bool :=
  truthy (musicianScene arrangement musicianName)
  || is_str (if truthy arrangement then field arrangement "solo" else VNull) musicianName
  || is_str (if truthy arrangement then field arrangement "pickup" else VNull) musicianName.

(** *** The solo bookkeeping of [updateEnsembleDisplay]

    One call, on the pair [(this.currentSolo, this.recentSoloists)] and the
    arrangement of the tick.  Musician names are strings; a truthy previous
    solo that is not a string is not recorded here. *)
Definition trackSolo (st : value * list string) (arrangement : value)
  : value * list string :=
  let '(previousSolo, recentSoloists) := st in
  let current := currentSolo arrangement in
  let recentSoloists :=
    if truthy previousSolo && negb (strict_eq current previousSolo) then
      match previousSolo with
      | VStr name => addRecentSoloist recentSoloists name
      | _ => recentSoloists
      end
    else recentSoloists in
  (current, recentSoloists).

(** The bookkeeping over the ticks of a playback, from the constructor's
    [currentSolo = null], [recentSoloists = []]. *)
Definition trackSolos (arrangements : list value) : value * list string :=
  fold_left trackSolo arrangements (VNull, []).

End Player.

(** ** The discovery state: [RabbitholeState] (src/state.js) *)

Module State.
Import Js.

(** What [getCatalog()] returns: slug -> track record (only [title] is
    read; it is [undefined] on a record without one).  The map holds the
    object's own entries. *)
Record CatalogEntry := { title : value }.
Abbreviation Catalog := (gmap string CatalogEntry).

(** The catalog is a plain object, and [catalog[slug]] also finds what every
    object inherits from [Object.prototype].  These are the names; each
    inherited member is a function or an object (so it counts as true) and
    has no [title]. *)
Definition inherited (slug : string) : bool :=
  existsb (String.eqb slug)
          ["constructor"; "__proto__"; "hasOwnProperty"; "isPrototypeOf";
           "propertyIsEnumerable"; "toLocaleString"; "toString"; "valueOf";
           "__defineGetter__"; "__defineSetter__"; "__lookupGetter__";
           "__lookupSetter__"].

Definition inheritedMember : CatalogEntry := {| title := VUndefined |}.

(** [catalog[slug]]: the own entry if there is one, else the inherited
    member of that name, else [undefined] ([None]). *)
Definition lookupCatalog (catalog : Catalog) (slug : string) : option CatalogEntry :=
  match catalog !! slug with
  | Some entry => Some entry
  | None => if inherited slug then Some inheritedMember else None
  end.

(** One element of what [getConnections(name)] resolves to. *)
Record Connection := { song : string; context : string }.

(** [{songSlug, songTitle, viaMusician}]; [songSlug] is [null] in the
    "No songs queued" value only. *)
Record SongRef := {
  songSlug : option string;
  songTitle : value;
  viaMusician : string
}.

Record RabbitholeState := {
  followingMusician : option string;
  playedSongs : gset string;
  currentSongSlug : option string;
  followMode : value;
  history : list SongRef;
  nextSong : option SongRef;
  queue : list string
}.

(** Calls of the two observers. *)
Inductive Event :=
| StateChange (previousMusician newMusician : option (option string))
| NextSongQueued (s : SongRef).

(** The object, the browser store and the observer calls made so far.  A
    stored text is kept as the JSON value it spells
    ([JSON.parse(JSON.stringify(v))] is [v] for what is written here); a
    store that refuses to write or holds unparsable text is not modelled. *)
Record World := {
  state : RabbitholeState;
  localStorage : gmap string value;
  events : list Event
}.

Definition with_state (w : World) (s : RabbitholeState) : World :=
  {| state := s; localStorage := localStorage w; events := events w |}.

Definition emit (w : World) (e : Event) : World :=
  {| state := state w; localStorage := localStorage w; events := (events w ++ [e])%list |}.

Definition storageKey : string := "rabbitholeState".

Definition opt_str (o : option string) : value :=
  match o with Some s => VStr s | None => VNull end.

(** A string-or-null field used as a condition. *)
Definition set_slug (o : option string) : bool :=
  match o with Some s => negb (String.eqb s "") | None => false end.

(** [toSave] in [saveToStorage].  The array lists the set's elements; the
    code writes them in the order they were added, which the set of the
    model does not keep. *)
Definition toSave (s : RabbitholeState) : value :=
  VObj [ ("followingMusician", opt_str (followingMusician s));
         ("playedSongs", VArr (map VStr (elements (playedSongs s))));
         ("currentSongSlug", opt_str (currentSongSlug s));
         ("followMode", followMode s) ].

Definition saveToStorage (w : World) : World :=
  {| state := state w;
     localStorage := <[storageKey := toSave (state w)]> (localStorage w);
     events := events w |}.

(** The strings of a parsed array. *)
Definition strings_of (l : list value) : list string :=
  flat_map (fun v => match v with VStr s => [s] | _ => [] end) l.

(** [loadFromStorage]: the updated object and the returned value.  The
    [catch] turns an exception into the [return null] at the end, with the
    object as it was: reading a field of [null] throws, and so does
    [new Set(x)] on a truthy [x] that is not iterable.  (A string is iterable
    in JS; it is treated here like the values that are not.  Array elements
    that are not strings are dropped.) *)
Definition loadFromStorage (w : World) : World * value :=
  match localStorage w !! storageKey with
  | Some parsed =>
      let s := state w in
      let played :=
        match parsed with
        | VNull | VUndefined => None
        | _ =>
            if truthy (field parsed "playedSongs") then
              match field parsed "playedSongs" with
              | VArr l => Some (list_to_set (strings_of l) : gset string)
              | _ => None
              end
            else Some ∅
        end in
      match played with
      | Some played =>
          (with_state w
             {| followingMusician := followingMusician s;
                playedSongs := played;
                currentSongSlug := currentSongSlug s;
                followMode := if truthy (field parsed "followMode")
                              then field parsed "followMode" else VStr "same";
                history := history s;
                nextSong := nextSong s;
                queue := queue s |},
           parsed)
      | None => (w, VNull)
      end
  | None => (w, VNull)
  end.

(** [new RabbitholeState(options)] on a given store: the field
    initialisers, then [this.loadFromStorage()], whose result is dropped. *)
Definition initialState : RabbitholeState :=
  {| followingMusician := None;
     playedSongs := ∅;
     currentSongSlug := None;
     followMode := VStr "same";
     history := [];
     nextSong := None;
     queue := [] |}.

Definition construct (storage : gmap string value) : World :=
  fst (loadFromStorage {| state := initialState; localStorage := storage; events := [] |}).

(** [clear] *)
Definition clear (w : World) : World :=
  emit {| state := {| followingMusician := None;
                      playedSongs := ∅;
                      currentSongSlug := None;
                      followMode := followMode (state w);
                      history := [];
                      nextSong := None;
                      queue := [] |};
          localStorage := delete storageKey (localStorage w);
          events := events w |}
       (StateChange None None).

(** [normalizeSlug]:
    [title.toLowerCase().replace(/\s+/g, '-').replace(/'/g, '')],
    on ASCII text. *)
Definition lower (c : ascii) : ascii :=
  let n := nat_of_ascii c in
  if (65 <=? n)%nat && (n <=? 90)%nat then ascii_of_nat (n + 32) else c.

(** [in_run] says that the previous character was a blank, whose run has
    already produced its dash. *)
Fixpoint dash_spaces (in_run : bool) (s : list ascii) : list ascii :=
  match s with
  | [] => []
  | c :: s' =>
      if is_space c then
        if in_run then dash_spaces true s' else "-"%char :: dash_spaces true s'
      else c :: dash_spaces false s'
  end.

Definition normalizeSlug (title : string) : string :=
  string_of_list_ascii
    (List.filter (fun c => negb (Ascii.eqb c "'"))
            (dash_spaces false (map lower (list_ascii_of_string title)))).

(** The filter of [queueNextSongByMusician]. *)
Definition playable (catalog : Catalog) (s : RabbitholeState) (conn : Connection)
  : bool :=
  let songSlug := normalizeSlug (song conn) in
  let hasRabbithole := bool_decide (is_Some (lookupCatalog catalog songSlug)) in
  let notPlayed := negb (bool_decide (songSlug ∈ playedSongs s)) in
  let notCurrent := negb (bool_decide (Some songSlug = currentSongSlug s)) in
  hasRabbithole && notPlayed && notCurrent.

Definition noSongsQueued (musicianName : string) : SongRef :=
  {| songSlug := None; songTitle := VStr "No songs queued"; viaMusician := musicianName |}.

(** [queueNextSongByMusician], from the point where the awaited
    [getConnections(musicianName)] has resolved to [connectionsData] ([None]
    for [null]); [random] is the value [Math.random()] returns.  The result
    is [None] when the body throws (an index outside [playableSongs]). *)
Definition queueNextSongByMusician (catalog : Catalog)
           (connectionsData : option (list Connection)) (random : Q)
           (musicianName : string) (w : World) : option World :=
  match connectionsData with
  | None => Some w
  | Some connectionsData =>
      let s := state w in
      let playableSongs := List.filter (playable catalog s) connectionsData in
      match playableSongs with
      | [] =>
          let sentinel := noSongsQueued musicianName in
          Some (emit (with_state w
                        {| followingMusician := followingMusician s;
                           playedSongs := playedSongs s;
                           currentSongSlug := currentSongSlug s;
                           followMode := followMode s;
                           history := history s;
                           nextSong := Some sentinel;
                           queue := queue s |})
                     (NextSongQueued sentinel))
      | _ =>
          let randomIndex :=
            Z.to_nat (Qfloor (random * inject_Z (Z.of_nat (length playableSongs)))) in
          match nth_error playableSongs randomIndex with
          | None => None
          | Some chosen =>
              let nextSlug := normalizeSlug (song chosen) in
              let songTitle :=
                match lookupCatalog catalog nextSlug with
                | Some catalogEntry => title catalogEntry
                | None => VStr (song chosen)
                end in
              let next := {| songSlug := Some nextSlug; songTitle := songTitle;
                             viaMusician := musicianName |} in
              Some (emit (with_state w
                            {| followingMusician := followingMusician s;
                               playedSongs := playedSongs s;
                               currentSongSlug := currentSongSlug s;
                               followMode := followMode s;
                               history := history s;
                               nextSong := Some next;
                               queue := [nextSlug] |})
                         (NextSongQueued next))
          end
      end
  end.

(** [setFollowingMusician], up to the call of [queueNextSongByMusician]
    (whose body runs on after its [await]). *)
Definition setFollowingMusician (musicianName : string) (w : World) : World :=
  let s := state w in
  let previousMusician := followingMusician s in
  let w := with_state w
             {| followingMusician := Some musicianName;
                playedSongs := playedSongs s;
                currentSongSlug := currentSongSlug s;
                followMode := followMode s;
                history := history s;
                nextSong := nextSong s;
                queue := queue s |} in
  emit (saveToStorage w) (StateChange (Some previousMusician) (Some (Some musicianName))).

(** [setCurrentSong] *)
Definition setCurrentSong (catalog : Catalog) (newSlug : string) (w : World) : World :=
  let s := state w in
  let history' :=
    match currentSongSlug s, nextSong s with
    | Some cur, Some next =>
        if set_slug (Some cur) then
          match lookupCatalog catalog cur with
          | Some currentSongData =>
              (history s ++ [{| songSlug := Some cur;
                                songTitle := title currentSongData;
                                viaMusician := viaMusician next |}])%list
          | None => history s
          end
        else history s
    | _, _ => history s
    end in
  let played' :=
    match currentSongSlug s with
    | Some cur => if set_slug (Some cur) then {[cur]} ∪ playedSongs s else playedSongs s
    | None => playedSongs s
    end in
  let w := with_state w
             {| followingMusician := followingMusician s;
                playedSongs := played';
                currentSongSlug := Some newSlug;
                followMode := followMode s;
                history := history';
                nextSong := nextSong s;
                queue := queue s |} in
  emit (saveToStorage w) (StateChange None None).

Definition with_queue (s : RabbitholeState) (q : list string) : RabbitholeState :=
  {| followingMusician := followingMusician s;
     playedSongs := playedSongs s;
     currentSongSlug := currentSongSlug s;
     followMode := followMode s;
     history := history s;
     nextSong := nextSong s;
     queue := q |}.

(** [popNextSong] *)
Definition popNextSong (w : World) : World * option string :=
  match queue (state w) with
  | [] => (w, None)
  | x :: q => (with_state w (with_queue (state w) q), Some x)
  end.

(** [addToQueue] *)
Definition addToQueue (slug : string) (w : World) : World :=
  with_state w (with_queue (state w) (queue (state w) ++ [slug])%list).

(** [getPreviousSong] *)
Definition getPreviousSong (w : World) : option SongRef := last (history (state w)).

(** [goBack] *)
Definition goBack (w : World) : World * option SongRef :=
  let s := state w in
  match last (history s) with
  | None => (w, None)
  | Some previousSong =>
      (with_state w
         {| followingMusician := followingMusician s;
            playedSongs := match songSlug previousSong with
                           | Some slug => playedSongs s ∖ {[slug]}
                           | None => playedSongs s
                           end;
            currentSongSlug := currentSongSlug s;
            followMode := followMode s;
            history := removelast (history s);
            nextSong := nextSong s;
            queue := queue s |},
       Some previousSong)
  end.

(** [isPlayable], as a condition. *)
Definition isPlayable (catalog : Catalog) (slug : string) (w : World) : bool :=
  bool_decide (is_Some (lookupCatalog catalog slug))
  && negb (bool_decide (slug ∈ playedSongs (state w)))
  && negb (bool_decide (Some slug = currentSongSlug (state w))).

(** The operations that work on the follow target and the queue only; a call
    of [queueNextSongByMusician] that throws leaves the object as it was. *)
Inductive QueueAction :=
| Follow (musicianName : string)
| Requeue (connectionsData : option (list Connection)) (random : Q)
          (musicianName : string)
| Pop
| Enqueue (slug : string).

Definition act (catalog : Catalog) (w : World) (a : QueueAction) : World :=
  match a with
  | Follow musicianName => setFollowingMusician musicianName w
  | Requeue connectionsData random musicianName =>
      match queueNextSongByMusician catalog connectionsData random musicianName w with
      | Some w' => w'
      | None => w
      end
  | Pop => fst (popNextSong w)
  | Enqueue slug => addToQueue slug w
  end.

End State.

(** ** The coordinator: [RabbitholePlayer] (src/index.js)

    The catalog is a [StaticCatalog] whose [init()] has run: [catalogData]
    is the catalog's own map, and [getSong(slug)] is [catalog[slug] || null].
    [getSong] is modelled on the catalog's own entries: a slug that only names
    an inherited member of the object is outside this model of [playSong],
    which hands the track to the visualisation player.
    The visualisation player and the DOM are not modelled; the calls of
    [onSongChange] are kept as the list of slugs started. *)

Module Host.
Import Js State.

(** A track record: the part [RabbitholeState] reads, and [ensemble]. *)
Record Track := { trackEntry : CatalogEntry; trackEnsemble : value }.

(** What [getCatalog()] gives the state. *)
Definition catalogOf (songs : gmap string Track) : Catalog := trackEntry <$> songs.

Record Player := {
  world : World;
  currentTrack : option Track;
  songsStarted : list string
}.

Definition with_world (p : Player) (w : World) : Player :=
  {| world := w; currentTrack := currentTrack p; songsStarted := songsStarted p |}.

(** [playSong] *)
Definition playSong (songs : gmap string Track) (slug : string) (p : Player) : Player :=
  match songs !! slug with
  | None => p
  | Some track =>
      {| world := setCurrentSong (catalogOf songs) slug (world p);
         currentTrack := Some track;
         songsStarted := (songsStarted p ++ [slug])%list |}
  end.

(** [getBandmates] *)
Definition getBandmates (p : Player) : list string :=
  match currentTrack p with
  | None => []
  | Some track =>
      if truthy (trackEnsemble track) then
        List.filter (fun name =>
                       negb (bool_decide (Some name = followingMusician (state (world p)))))
                    (map fst (entries (trackEnsemble track)))
      else []
  end.

(** [playNext].  [getConnections] is the catalog's lookup, [randomBandmate]
    and [randomSong] the values [Math.random()] returns for the bandmate and
    for the song.  [setFollowingMusician] starts [queueNextSongByMusician],
    whose body runs only after its awaited lookup: the [popNextSong] that
    follows sees the queue as it was.  When that second pop does give a slug,
    the lookup and [getSong] are both awaited, and [connectionsFirst] says
    which one resolves first.  The result is [None] when an index falls
    outside its array. *)
Definition playNext (songs : gmap string Track)
           (getConnections : string -> option (list Connection))
           (randomBandmate randomSong : Q) (connectionsFirst : bool) (p : Player)
  : option Player :=
  let catalog := catalogOf songs in
  let '(w1, nextSlug) := popNextSong (world p) in
  let p1 := with_world p w1 in
  if negb (set_slug nextSlug) then
    match getBandmates p1 with
    | [] => Some p1
    | bandmates =>
        let index :=
          Z.to_nat (Qfloor (randomBandmate * inject_Z (Z.of_nat (length bandmates)))) in
        match nth_error bandmates index with
        | None => None
        | Some bandmate =>
            let pending :=
              queueNextSongByMusician catalog (getConnections bandmate) randomSong
                                      bandmate in
            let '(w3, newNextSlug) := popNextSong (setFollowingMusician bandmate w1) in
            match newNextSlug with
            | Some newNextSlug =>
                if set_slug (Some newNextSlug) then
                  if connectionsFirst then
                    option_map (fun w => playSong songs newNextSlug (with_world p1 w))
                               (pending w3)
                  else
                    let p4 := playSong songs newNextSlug (with_world p1 w3) in
                    option_map (with_world p4) (pending (world p4))
                else option_map (with_world p1) (pending w3)
            | None => option_map (with_world p1) (pending w3)
            end
        end
    end
  else
    match nextSlug with
    | Some nextSlug =>
        let p2 := playSong songs nextSlug p1 in
        match followingMusician (state (world p2)) with
        | Some musician =>
            if set_slug (Some musician) then
              option_map (with_world p2)
                         (queueNextSongByMusician catalog (getConnections musician)
                                                  randomSong musician (world p2))
            else Some p2
        | None => Some p2
        end
    | None => Some p1
    end.

(** [playPrevious]; a history entry without a slug is never written and is
    not modelled. *)
Definition playPrevious (songs : gmap string Track) (p : Player) : option Player :=
  let '(w1, previousSong) := goBack (world p) in
  match previousSong with
  | None => Some (with_world p w1)
  | Some previousSong =>
      match songSlug previousSong with
      | Some slug => Some (playSong songs slug (with_world p w1))
      | None => None
      end
  end.

End Host.

(** ** [StaticCatalog.getMusicianConnections] (src/catalog.js), on ASCII text *)

Module StaticCatalog.
Import Js State.

(** [s] begins with [t]. *)
Fixpoint starts_with (t s : list ascii) : bool :=
  match t, s with
  | [], _ => true
  | a :: t', b :: s' => Ascii.eqb a b && starts_with t' s'
  | _ :: _, [] => false
  end.

(** [s.includes(t)] *)
Fixpoint includes (s t : list ascii) : bool :=
  starts_with t s
  || match s with
     | [] => false
     | _ :: s' => includes s' t
     end.

(** [s.split(' ')[0]] *)
Fixpoint first_word (s : list ascii) : list ascii :=
  match s with
  | [] => []
  | c :: s' => if Ascii.eqb c " " then [] else c :: first_word s'
  end.

(** [s.trim()] *)
Definition trim (s : list ascii) : list ascii :=
  rev (skip_spaces (rev (skip_spaces s))).

(** [[^)]*\)$] matches all of [s]: a closing parenthesis at the very end,
    and none before it. *)
Fixpoint closes_at_end (s : list ascii) : bool :=
  match s with
  | [] => false
  | c :: s' =>
      match s' with
      | [] => Ascii.eqb c ")"
      | _ => negb (Ascii.eqb c ")") && closes_at_end s'
      end
  end.

(** [\s*\([^)]*\)$] matches at the start of [s] and runs to its end. *)
Definition parenthetical (s : list ascii) : bool :=
  match skip_spaces s with
  | "("%char :: r => closes_at_end r
  | _ => false
  end.

(** [s.replace(/\s*\([^)]*\)$/, '')]: the leftmost match is removed. *)
Fixpoint strip_parenthetical (s : list ascii) : list ascii :=
  if parenthetical s then []
  else match s with
       | [] => []
       | c :: s' => c :: strip_parenthetical s'
       end.

Definition cleanName (musicianName : string) : list ascii :=
  trim (strip_parenthetical (list_ascii_of_string musicianName)).

(** The test of the partial match. *)
Definition partialMatch (cleanName oracleName : list ascii) : bool :=
  includes cleanName (first_word oracleName)
  || includes oracleName (first_word cleanName).

(** [getMusicianConnections]; [connections] is the object given to the
    constructor, in [Object.entries] order. *)
Definition getMusicianConnections (connections : list (string * list Connection))
           (musicianName : string) : list Connection :=
  let clean := cleanName musicianName in
  match find (fun kv => String.eqb (fst kv) (string_of_list_ascii clean)) connections with
  | Some (_, exact) => exact
  | None =>
      match find (fun kv => partialMatch clean (list_ascii_of_string (fst kv)))
                 connections with
      | Some (_, partial) => partial
      | None => []
      end
  end.

End StaticCatalog.


(** ** Tracks and states used in the examples *)

Module Examples.
Import Js Player State.


(** The same with parts, and a section that overrides its length. *)
Definition songTrack : TrackData :=
  {| ensemble := [("Alice", VArr [VStr "guitar"]); ("Bob", VArr [VStr "banjo"])];
     timeline :=
       [("0", VObj [("part", VStr "intro")]);
        ("10", VObj [("part", VStr "kick"); ("musicians", VObj [("band", VStr "in")])]);
        ("section1", VObj [("part", VStr "verse")]);
        ("section2", VObj [("part", VStr "chorus"); ("length", VNum 20);
                           ("55", VObj [("solo", VStr "Alice"); ("part", VStr "break")])]);
        ("section3", VObj [("part", VStr "outro")])];
     standardSectionLength := VNum 30 |}.


(** A track whose musicians come and go inside a section. *)
Definition sectionBandTrack : TrackData :=
  {| ensemble := [("Alice", VArr [VStr "guitar"]); ("Bob", VArr [VStr "banjo"])];
     timeline :=
       [("0", VObj [("part", VStr "intro"); ("musicians", VObj [("band", VStr "out")])]);
        ("section1", VObj [("part", VStr "verse");
                           ("musicians", VObj [("band", VStr "in")]);
                           ("45", VObj [("musicians", VObj [("Bob", VStr "out")])])])];
     standardSectionLength := VNum 30 |}.

(** A track in the legacy form: the featured musician is named by
    [soloist]. *)
Definition soloistTrack : TrackData :=
  {| ensemble := [("Alice", VArr [VStr "guitar"]); ("Bob", VArr [VStr "banjo"])];
     timeline := [("0", VObj [("part", VStr "intro")]);
                  ("20", VObj [("soloist", VStr "Bob")])];
     standardSectionLength := VUndefined |}.

(** Catalog [{a, b, c}], [playedSongs = {a}], [currentSongSlug = b],
    connections [[a, b, c]]. *)
Definition abcCatalog : Catalog :=
  <["a" := {| title := VStr "A" |}]>
    (<["b" := {| title := VStr "B" |}]> (<["c" := {| title := VStr "C" |}]> ∅)).

Definition abcConnections : list Connection :=
  [ {| song := "a"; context := "" |};
    {| song := "b"; context := "" |};
    {| song := "c"; context := "" |} ].

Definition abcWorld : World :=
  {| state := {| followingMusician := None;
                 playedSongs := {["a"]};
                 currentSongSlug := Some "b";
                 followMode := VStr "same";
                 history := [];
                 nextSong := None;
                 queue := [] |};
     localStorage := ∅;
     events := [] |}.

(** The same, with a recommendation pending and a musician followed. *)
Definition followingWorld : World :=
  {| state := {| followingMusician := Some "Alice";
                 playedSongs := {["a"]};
                 currentSongSlug := Some "b";
                 followMode := VStr "same";
                 history := [];
                 nextSong := Some {| songSlug := Some "c"; songTitle := VStr "C";
                                     viaMusician := "Alice" |};
                 queue := ["c"] |};
     localStorage := ∅;
     events := [] |}.

(** A track with one moment: the band comes in at 50. *)
Definition momentTrack : TrackData :=
  {| ensemble := [("Alice", VArr [VStr "guitar"]); ("Bob", VArr [VStr "banjo"])];
     timeline := [("0", VObj [("part", VStr "intro")]);
                  ("50", VObj [("part", VStr "verse");
                               ("musicians", VObj [("band", VStr "in")])])];
     standardSectionLength := VUndefined |}.
(** The current song is ["constructor"], a name every object inherits; a
    recommendation is pending. *)
Definition constructorWorld : World :=
  {| state := {| followingMusician := Some "Alice";
                 playedSongs := ∅;
                 currentSongSlug := Some "constructor";
                 followMode := VStr "same";
                 history := [];
                 nextSong := Some {| songSlug := Some "a"; songTitle := VStr "A";
                                     viaMusician := "Alice" |};
                 queue := ["a"] |};
     localStorage := ∅;
     events := [] |}.

(** The same with a current song that the catalog does not have. *)
Definition unknownSongWorld : World :=
  {| state := {| followingMusician := Some "Alice";
                 playedSongs := ∅;
                 currentSongSlug := Some "zzz";
                 followMode := VStr "same";
                 history := [];
                 nextSong := Some {| songSlug := Some "a"; songTitle := VStr "A";
                                     viaMusician := "Alice" |};
                 queue := ["a"] |};
     localStorage := ∅;
     events := [] |}.



(** A track whose entry at 50 announces the band coming in both ways:
    through [musicians.band] and through the legacy [detail]. *)
Definition doubleMomentTrack : TrackData :=
  {| ensemble := [("Alice", VArr [VStr "guitar"]); ("Bob", VArr [VStr "banjo"])];
     timeline := [("0", VObj [("part", VStr "intro")]);
                  ("50", VObj [("part", VStr "verse");
                               ("musicians", VObj [("band", VStr "in")]);
                               ("detail", VStr "band-in")])];
     standardSectionLength := VUndefined |}.

(** The catalog [{a, b, c}] as track records, each played by Alice and Bob. *)
Definition abcTrack (t : string) : Host.Track :=
  {| Host.trackEntry := {| title := VStr t |};
     Host.trackEnsemble := VObj [("Alice", VArr [VStr "guitar"]);
                                 ("Bob", VArr [VStr "banjo"])] |}.

Definition abcSongs : gmap string Host.Track :=
  <["a" := abcTrack "A"]> (<["b" := abcTrack "B"]> (<["c" := abcTrack "C"]> ∅)).

(** [b] is playing, [a] was played before it and is the last history entry,
    [c] is recommended; Alice is followed. *)
Definition abcPlayer : Host.Player :=
  {| Host.world :=
       {| state := {| followingMusician := Some "Alice";
                      playedSongs := {["a"]};
                      currentSongSlug := Some "b";
                      followMode := VStr "same";
                      history := [{| songSlug := Some "a"; songTitle := VStr "A";
                                     viaMusician := "Alice" |}];
                      nextSong := Some {| songSlug := Some "c"; songTitle := VStr "C";
                                          viaMusician := "Alice" |};
                      queue := ["c"] |};
          localStorage := ∅;
          events := [] |};
     Host.currentTrack := Some (abcTrack "B");
     Host.songsStarted := ["a"; "b"] |}.
(** The connections of two musicians. *)
Definition bandConnections : list (string * list Connection) :=
  [("Alice Smith", [ {| song := "a"; context := "" |} ]);
   ("Bob Jones", [ {| song := "b"; context := "" |}; {| song := "c"; context := "" |} ])].

(** The same with nothing queued. *)
Definition idlePlayer : Host.Player :=
  Host.with_world abcPlayer
    (with_state (Host.world abcPlayer) (with_queue (state (Host.world abcPlayer)) [])).
End Examples.

(* ================================================================== *)
(** * Part II: theorems                                                *)
(* ================================================================== *)

Import Js.

(** ** Facts about keys, objects and sorting *)

Lemma same_key_refl (t : number) : same_key t t = true.
Proof.
  destruct t as [|q]; simpl; [reflexivity|].
  apply Qeq_bool_iff. reflexivity.
Qed.

Lemma same_key_sym (a b : number) : same_key a b = same_key b a.
Proof.
  destruct a as [|x], b as [|y]; simpl; try reflexivity.
  destruct (Qeq_bool x y) eqn:E, (Qeq_bool y x) eqn:F; try reflexivity.
  - apply Qeq_bool_iff in E. symmetry in E. apply Qeq_bool_iff in E. congruence.
  - apply Qeq_bool_iff in F. symmetry in F. apply Qeq_bool_iff in F. congruence.
Qed.

Lemma same_key_trans (a b c : number) :
  same_key a b = true -> same_key b c = true -> same_key a c = true.
Proof.
  destruct a as [|x], b as [|y], c as [|z]; simpl; try congruence.
  rewrite !Qeq_bool_iff. intros H1 H2. now rewrite H1.
Qed.

Lemma same_key_false_l (a b c : number) :
  same_key a b = false -> same_key b c = true -> same_key a c = false.
Proof.
  intros Hab Hbc. destruct (same_key a c) eqn:Hac; [|reflexivity].
  rewrite same_key_sym in Hbc.
  rewrite (same_key_trans a c b Hac Hbc) in Hab. discriminate.
Qed.




Lemma get_set_same (o : obj) (k : string) (v : value) : get (set o k v) k = v.
Proof.
  induction o as [|[k0 v0] o IH]; simpl.
  - now rewrite String.eqb_refl.
  - destruct (String.eqb k0 k) eqn:E; simpl; now rewrite E.
Qed.

Lemma get_set_other (o : obj) (k k' : string) (v : value) :
  k <> k' -> get (set o k v) k' = get o k'.
Proof.
  intros H. induction o as [|[k0 v0] o IH]; simpl.
  - destruct (String.eqb_spec k k'); [contradiction | reflexivity].
  - destruct (String.eqb_spec k0 k) as [->|Hne]; simpl.
    + destruct (String.eqb_spec k k'); [contradiction | reflexivity].
    + destruct (String.eqb k0 k'); [reflexivity | exact IH].
Qed.

(** Shallow merge: a field of [{...a, ...b}] is [b]'s when [b] has it, else
    [a]'s. *)
Lemma get_spread (a b : obj) (k : string) :
  get (spread a b) k =
  match last_field b k with Some v => v | None => get a k end.
Proof.
  unfold spread, last_field. revert a.
  induction b as [|[k0 v0] b IH] using rev_ind; intros a; simpl; [reflexivity|].
  rewrite fold_left_app, rev_app_distr. simpl.
  destruct (String.eqb_spec k0 k) as [->|Hne]; simpl.
  - apply get_set_same.
  - rewrite get_set_other by assumption. apply IH.
Qed.

Section SortFacts.
Context {A : Type} (after : A -> A -> bool).

Lemma insert_sorted_perm (x : A) (l : list A) :
  Permutation (x :: l) (insert_sorted after x l).
Proof.
  induction l as [|y l IH]; simpl; [reflexivity|].
  destruct (after x y); [|reflexivity].
  rewrite perm_swap. now constructor.
Qed.

Lemma sort_perm (l : list A) : Permutation l (sort after l).
Proof.
  induction l as [|x l IH]; simpl; [reflexivity|].
  rewrite <- insert_sorted_perm. now constructor.
Qed.

Lemma sort_In (l : list A) (x : A) : In x (sort after l) <-> In x l.
Proof.
  split; apply Permutation_in; [symmetry|]; apply sort_perm.
Qed.
End SortFacts.

(** ** The section loop of [processTimelineKeys] *)

Import Player.
















(** ** Sub-moments *)
















(** ** The moment dispatcher: [checkForMoments] *)

Lemma due_iff (T m : Q) :
  Qle_bool 0 (T - m) && Qle_bool (T - m) 1 = true <-> (0 <= T - m /\ T - m <= 1)%Q.
Proof. now rewrite andb_true_iff, !Qle_bool_iff. Qed.

Lemma future_iff (T m : Q) : negb (Qle_bool 0 (T - m)) = true <-> (T - m < 0)%Q.
Proof.
  rewrite negb_true_iff. split.
  - intros H. apply Qnot_le_lt. intros L. apply Qle_bool_iff in L. congruence.
  - intros H. destruct (Qle_bool 0 (T - m)) eqn:E; [|reflexivity].
    apply Qle_bool_iff in E. exfalso. apply (Qlt_not_le _ _ H E).
Qed.

Lemma triggered_now (T : Q) (up : list Q) (m : Q) :
  In m (fst (checkForMoments T up)) <-> In m up /\ (0 <= T - m /\ T - m <= 1)%Q.
Proof.
  unfold checkForMoments, momentsToTrigger. simpl.
  now rewrite filter_In, due_iff.
Qed.

Lemma kept_for_later (T : Q) (up : list Q) (m : Q) :
  In m (snd (checkForMoments T up)) <-> In m up /\ (T - m < 0)%Q.
Proof.
  unfold checkForMoments, momentsNotYetReached. simpl.
  now rewrite filter_In, future_iff.
Qed.

Lemma culled_now (T : Q) (up : list Q) (m : Q) :
  In m (momentsMissedAndNeedCulling T up) <-> In m up /\ (1 < T - m)%Q.
Proof.
  unfold momentsMissedAndNeedCulling. rewrite filter_In, andb_true_iff, negb_true_iff.
  rewrite Qle_bool_iff. split.
  - intros [Hin [H0 H1]]. split; [exact Hin|].
    apply Qnot_le_lt. intros L. apply Qle_bool_iff in L. congruence.
  - intros [Hin H]. split; [exact Hin|]. split; [lra|].
    destruct (Qle_bool (T - m) 1) eqn:E; [|reflexivity].
    apply Qle_bool_iff in E. lra.
Qed.

Lemma poll_cons (T : Q) (ticks up : list Q) :
  poll (T :: ticks) up
  = (fst (checkForMoments T up) :: fst (poll ticks (snd (checkForMoments T up))),
     snd (poll ticks (snd (checkForMoments T up)))).
Proof.
  simpl. now destruct (poll ticks (momentsNotYetReached T up)).
Qed.

Lemma poll_app (pre rest up : list Q) :
  poll (pre ++ rest) up
  = ((fst (poll pre up) ++ fst (poll rest (snd (poll pre up))))%list,
     snd (poll rest (snd (poll pre up)))).
Proof.
  revert up. induction pre as [|T pre IH]; intros up.
  - simpl. now destruct (poll rest up).
  - change ((T :: pre) ++ rest)%list with (T :: (pre ++ rest))%list.
    rewrite !poll_cons, IH. reflexivity.
Qed.

(** What is still upcoming after a run: the moments every tick was before. *)
Lemma still_upcoming (ticks up : list Q) (m : Q) :
  In m (snd (poll ticks up)) <-> In m up /\ Forall (fun T => T < m)%Q ticks.
Proof.
  revert up. induction ticks as [|T ticks IH]; intros up.
  - simpl. split; [intros H; split; [exact H | constructor] | tauto].
  - rewrite poll_cons. cbn [snd]. rewrite IH, kept_for_later. split.
    + intros [[Hin Hlt] Hall]. split; [exact Hin|]. constructor; [lra | exact Hall].
    + intros [Hin Hall]. inversion Hall; subst. repeat split; [exact Hin | lra | assumption].
Qed.

Lemma triggered_subset (ticks up : list Q) (m : Q) :
  In m (triggered ticks up) -> In m up.
Proof.
  unfold triggered. revert up. induction ticks as [|T ticks IH]; intros up; simpl.
  - tauto.
  - destruct (poll ticks (momentsNotYetReached T up)) as [later final] eqn:E. simpl.
    rewrite in_app_iff. intros [H|H].
    + unfold momentsToTrigger in H. now apply filter_In in H.
    + specialize (IH (momentsNotYetReached T up)). rewrite E in IH.
      apply IH in H. unfold momentsNotYetReached in H. now apply filter_In in H.
Qed.

Lemma occurrences_app (m : Q) (a b : list Q) :
  occurrences m (a ++ b) = (occurrences m a + occurrences m b)%nat.
Proof. unfold occurrences. now rewrite List.filter_app, length_app. Qed.

(** Two buckets of one tick never share an entry. *)
Lemma occurrences_split (m T : Q) (up : list Q) :
  (occurrences m (momentsToTrigger T up)
   + occurrences m (momentsNotYetReached T up) <= occurrences m up)%nat.
Proof.
  unfold occurrences, momentsToTrigger, momentsNotYetReached.
  induction up as [|x up IH]; simpl; [lia|].
  destruct (Qle_bool 0 (T - x)); simpl;
    destruct (Qle_bool (T - x) 1); simpl;
    destruct (Qeq_bool m x); simpl; lia.
Qed.

Lemma triggered_at_most (ticks up : list Q) (m : Q) :
  (occurrences m (triggered ticks up) <= occurrences m up)%nat.
Proof.
  unfold triggered. revert up. induction ticks as [|T ticks IH]; intros up.
  - simpl. unfold occurrences. simpl. lia.
  - rewrite poll_cons. cbn [fst]. cbn [concat]. rewrite occurrences_app.
    specialize (IH (snd (checkForMoments T up))).
    pose proof (occurrences_split m T up). simpl in *. lia.
Qed.

Lemma triggered_nothing_upcoming (ticks : list Q) : triggered ticks [] = [].
Proof.
  unfold triggered. induction ticks as [|T ticks IH]; [reflexivity|].
  rewrite poll_cons. simpl. exact IH.
Qed.

Lemma poll_before (pre : list Q) (m : Q) :
  Forall (fun T => T < m)%Q pre ->
  concat (fst (poll pre [m])) = [] /\ snd (poll pre [m]) = [m].
Proof.
  induction 1 as [|T pre HT Hall IH]; [split; reflexivity|].
  rewrite poll_cons.
  assert (checkForMoments T [m] = ([], [m])) as E.
  { unfold checkForMoments, momentsToTrigger, momentsNotYetReached. simpl.
    assert (Qle_bool 0 (T - m) = false) as ->; [|reflexivity].
    destruct (Qle_bool 0 (T - m)) eqn:E; [|reflexivity].
    apply Qle_bool_iff in E. lra. }
  rewrite E. simpl. exact IH.
Qed.

Lemma triggered_app (pre rest up : list Q) :
  triggered (pre ++ rest) up
  = (triggered pre up ++ triggered rest (snd (poll pre up)))%list.
Proof. unfold triggered. rewrite poll_app. cbn [fst]. apply concat_app. Qed.

(** C5 on [Examples.doubleMomentTrack], whose entry at 50 announces the
    band coming in both through [musicians.band] and through the legacy
    [detail].  [extractMomentTimes] pushes the time once for each, so 50 is
    listed twice; at the tick 50.5 both copies are due and [checkForMoments]
    hands 50 to [triggerMoment] twice: the moment fires twice in the run
    (four flashes of the ensemble, two for each call).  On
    [Examples.momentTrack], where the band is announced through
    [musicians.band] only, the moment is listed once and fires once. *)
Theorem moment_fires_twice :
  let tr := Examples.doubleMomentTrack in
  let ticks := [49; 101 # 2; 51]%Q in
  extractMomentTimes tr = [50; 50]%Q
  /\ fst (checkForMoments (101 # 2) (extractMomentTimes tr)) = [50; 50]%Q
  /\ fst (poll ticks (extractMomentTimes tr)) = [[]; [50; 50]%Q; []]
  /\ triggered ticks (extractMomentTimes tr) = [50; 50]%Q
  /\ occurrences 50 (triggered ticks (extractMomentTimes tr)) = 2%nat
  /\ flashes tr ticks (extractMomentTimes tr)
     = [FlashEntireEnsemble; FlashEntireEnsemble; FlashEntireEnsemble; FlashEntireEnsemble]
  /\ extractMomentTimes Examples.momentTrack = [50%Q]
  /\ triggered ticks (extractMomentTimes Examples.momentTrack) = [50%Q].
Proof. cbv zeta. repeat split; vm_compute; reflexivity. Qed.

(** ** Moment times: [extractMomentTimes] *)

Section SortedQ.
Let after (a b : Q) : bool := negb (Qle_bool a b).

Lemma insert_sorted_Qle (x : Q) (l : list Q) :
  Sorted Qle l -> Sorted Qle (insert_sorted after x l).
Proof.
  induction l as [|y l IH]; intros H; simpl.
  - repeat constructor.
  - unfold after at 1. destruct (Qle_bool x y) eqn:E; simpl.
    + constructor; [exact H|]. constructor. now apply Qle_bool_iff.
    + assert (y <= x)%Q as Hyx.
      { destruct (Qlt_le_dec x y) as [L|L]; [|exact L].
        apply Qlt_le_weak, Qle_bool_iff in L. congruence. }
      inversion H as [|? ? Hs Hh]; subst.
      constructor; [now apply IH|].
      destruct l as [|z l]; simpl.
      * now constructor.
      * unfold after. inversion Hh; subst.
        destruct (Qle_bool x z); simpl; now constructor.
Qed.

Lemma sort_Qle (l : list Q) : Sorted Qle (sort after l).
Proof.
  induction l as [|x l IH]; simpl; [constructor|].
  now apply insert_sorted_Qle.
Qed.
End SortedQ.

Lemma momentsOfEntry_In (timeStr : string) (arrangement : value) (t : Q) :
  In t (momentsOfEntry timeStr arrangement)
  <-> Number timeStr = Num t /\ (0 < t)%Q /\ momentWorthy arrangement = true.
Proof.
  unfold momentsOfEntry, momentWorthy.
  destruct (Number timeStr) as [|time]; [simpl; split; [tauto | intros [H _]; discriminate]|].
  cbv zeta. unfold num_lt.
  assert (negb (Qle_bool time 0) = true <-> (0 < time)%Q) as Hpos.
  { rewrite negb_true_iff. split.
    - intros H. apply Qnot_le_lt. intros L. apply Qle_bool_iff in L. congruence.
    - intros H. destruct (Qle_bool time 0) eqn:E; [|reflexivity].
      apply Qle_bool_iff in E. exfalso. apply (Qlt_not_le _ _ H E). }
  destruct (negb (Qle_bool time 0)) eqn:Epos.
  - assert (0 < time)%Q as Ht by now apply Hpos.
    rewrite !andb_true_r.
    destruct (truthy (field arrangement "musicians")) eqn:Em;
      destruct (is_str (field (field arrangement "musicians") "band") "in"
                || is_str (field (field arrangement "musicians") "band") "out") eqn:Eb;
      destruct (hasMusiciansChanging (field arrangement "musicians")) eqn:Eh;
      destruct (is_str (field arrangement "detail") "band-in") eqn:Ed;
      simpl;
      (split;
       [ intros H;
         repeat (destruct H as [H|H]; [subst t; repeat split; assumption|]);
         contradiction
       | intros (Heq & _ & Hw); injection Heq as ->;
         first [discriminate | now left] ]).
  - rewrite !andb_false_r. simpl. split; [tauto|].
    intros (Heq & Ht & _). injection Heq as <-.
    apply Hpos in Ht. discriminate.
Qed.

(** What [extractMomentTimes] does compute: the positive times of the
    top-level entries whose key [Number] reads as a number and whose
    arrangement announces a change, in ascending order. *)
Lemma extractMomentTimes_top_level (tr : TrackData) :
  Sorted Qle (extractMomentTimes tr)
  /\ forall t, In t (extractMomentTimes tr)
               <-> exists k a, In (k, a) (timeline tr) /\ Number k = Num t
                               /\ (0 < t)%Q /\ momentWorthy a = true.
Proof.
  split; [apply sort_Qle|].
  intros t. unfold extractMomentTimes. rewrite sort_In, in_flat_map. split.
  - intros ([k a] & Hin & Ht). apply momentsOfEntry_In in Ht. now exists k, a.
  - intros (k & a & Hin & Ht). exists (k, a). split; [exact Hin|].
    now apply momentsOfEntry_In.
Qed.

(** C6 on [Examples.sectionBandTrack].  The band comes in at the start of
    [section1] (resolved time 30) and Bob drops out at the sub-moment 45:
    [getMusicianStatus], which reads the resolved timeline, reports both
    changes, while [extractMomentTimes], which reads the raw keys through
    [Number], finds no moment at all ([Number("section1")] is NaN). *)
Theorem moments_miss_section_entries :
  let tr := Examples.sectionBandTrack in
  field (field (tget (processTimelineKeys tr) (Num 30)) "musicians") "band" = VStr "in"
  /\ field (field (tget (processTimelineKeys tr) (Num 45)) "musicians") "Bob" = VStr "out"
  /\ getMusicianStatus tr "Bob" 29 = VStr "out"
  /\ getMusicianStatus tr "Bob" 30 = VStr "in"
  /\ getMusicianStatus tr "Bob" 45 = VStr "out"
  /\ Number "section1" = NaN
  /\ extractMomentTimes tr = [].
Proof. cbv zeta. repeat split; reflexivity. Qed.

(** ** Weights: [calculateDynamicWeight] *)

(** C9 on [Examples.soloistTrack].  At time 20 the arrangement names Bob
    as [soloist]; [updateEnsembleDisplay] takes him for the current solo
    ([arrangement.solo || arrangement.soloist]), but
    [calculateDynamicWeight] looks at [arrangement.solo] only: Bob keeps his
    base weight 110 and Alice, who is not featured, has 100. *)
Theorem soloist_not_ranked_first :
  let tr := Examples.soloistTrack in
  let weights := initializeMusicianWeights tr in
  let arrangement := tget (processTimelineKeys tr) (Num 20) in
  arrangement = VObj [("soloist", VStr "Bob")]
  /\ currentSolo arrangement = VStr "Bob"
  /\ musicianScene arrangement "Alice" = VNull
  /\ is_str (field arrangement "pickup") "Alice" = false
  /\ calculateDynamicWeight tr weights [] "Bob" 20 arrangement = Num 110
  /\ calculateDynamicWeight tr weights [] "Alice" 20 arrangement = Num 100
  /\ num_lt (calculateDynamicWeight tr weights [] "Bob" 20 arrangement)
            (calculateDynamicWeight tr weights [] "Alice" 20 arrangement) = false.
Proof. cbv zeta. repeat split; reflexivity. Qed.

(** The pickup weight runs from 5 down to 2. *)
Lemma calculatePickupWeight_range (tr : TrackData) (musicianName : string) (currentTime : Q) :
  exists w, calculatePickupWeight tr musicianName currentTime = Num w
            /\ (2 <= w)%Q /\ (w <= 5)%Q.
Proof.
  unfold calculatePickupWeight. cbv zeta.
  destruct (find _ _) as [[[|time] v]|] eqn:E;
    try (exists 5%Q; repeat split; discriminate).
  apply find_some in E as [_ E]. cbn [fst snd] in E.
  apply andb_true_iff in E as [E _]. apply andb_true_iff in E as [E _].
  unfold num_le in E. apply Qle_bool_iff in E.
  assert (0 <= (currentTime - time) / 5)%Q as Hr.
  { apply Qle_shift_div_l; [reflexivity | lra]. }
  eexists. split; [reflexivity|].
  destruct (Qle_bool ((currentTime - time) / 5) 1) eqn:E1.
  - apply Qle_bool_iff in E1. split; lra.
  - split; lra.
Qed.

(** Base weights are 100 and up. *)
Lemma initializeMusicianWeights_ge (tr : TrackData) (name : string) (b : Q) :
  initializeMusicianWeights tr !! name = Some b -> (100 <= b)%Q.
Proof.
  unfold initializeMusicianWeights.
  assert (forall (l : obj) (m : gmap string Q) (b0 : Q),
             (100 <= b0)%Q ->
             (forall k v, m !! k = Some v -> (100 <= v)%Q) ->
             forall k v,
               fst (fold_left (fun st kv =>
                                 let '(weights, baseWeight) := st in
                                 (<[fst kv := baseWeight]> weights, baseWeight + 10)%Q)
                              l (m, b0)) !! k = Some v -> (100 <= v)%Q) as H.
  { induction l as [|[k0 v0] l IH]; intros m b0 Hb Hm k v; simpl.
    - apply Hm.
    - apply IH; [lra|]. intros k' v' Hk'.
      destruct (decide (k0 = k')) as [->|Hne].
      + rewrite lookup_insert_eq in Hk'. now injection Hk' as <-.
      + rewrite lookup_insert_ne in Hk' by assumption. now apply (Hm k'). }
  apply (H (ensemble tr) ∅ 100%Q); [discriminate|].
  intros k v Hk. rewrite lookup_empty in Hk. discriminate.
Qed.

(** With no key twice, the [i]-th musician of the ensemble gets
    [100 + 10 i]. *)
Lemma initializeMusicianWeights_nth (tr : TrackData) (i : nat) (name : string) :
  List.NoDup (map fst (ensemble tr)) ->
  nth_error (map fst (ensemble tr)) i = Some name ->
  initializeMusicianWeights tr !! name = Some (inject_Z (100 + 10 * Z.of_nat i)).
Proof.
  unfold initializeMusicianWeights.
  assert (forall (l : obj) (m : gmap string Q) (b0 : Z),
             List.NoDup (map fst l) ->
             (forall k, ~ In k (map fst l) ->
                        fst (fold_left (fun st kv =>
                                          let '(weights, baseWeight) := st in
                                          (<[fst kv := baseWeight]> weights, baseWeight + 10)%Q)
                                       l (m, inject_Z b0)) !! k = m !! k)
             /\ (forall j k, nth_error (map fst l) j = Some k ->
                             fst (fold_left (fun st kv =>
                                               let '(weights, baseWeight) := st in
                                               (<[fst kv := baseWeight]> weights, baseWeight + 10)%Q)
                                            l (m, inject_Z b0)) !! k
                             = Some (inject_Z (b0 + 10 * Z.of_nat j)))) as H.
  { induction l as [|[k0 v0] l IH]; intros m b0 Hnd.
    - split; [reflexivity | intros [|j] k Hj; discriminate].
    - inversion Hnd as [|? ? Hnin Hnd']; subst.
      assert (inject_Z b0 + 10 = inject_Z (b0 + 10))%Q as Hstep.
      { unfold Qplus, inject_Z. simpl. f_equal. lia. }
      simpl fold_left. cbn [fst]. rewrite Hstep.
      destruct (IH (<[k0 := inject_Z b0]> m) (b0 + 10)%Z Hnd') as [IH1 IH2].
      split.
      + intros k Hk. rewrite IH1.
        * apply lookup_insert_ne. intros ->. apply Hk. now left.
        * intros Hin. apply Hk. now right.
      + intros [|j] k Hj; simpl in Hj.
        * injection Hj as <-. rewrite IH1 by assumption.
          rewrite lookup_insert_eq. do 2 f_equal. lia.
        * rewrite (IH2 j k Hj). do 2 f_equal. lia. }
  intros Hnd Hi. exact (proj2 (H (ensemble tr) ∅ 100%Z Hnd) i name Hi).
Qed.

(** Weight ordering for the [solo] field.  A musician named by
    [arrangement.solo] weighs at most 8 (1 unless a feature scene says
    otherwise), and a musician of the ensemble that is neither solo nor
    pickup and has no feature scene weighs 10 plus its place among the
    recent soloists, or its base weight plus 5 for each recent soloist, so at
    least 10: the soloist ranks strictly first. *)
Lemma solo_outranks_non_featured
      (tr : TrackData) (recentSoloists : list string) (s m : string)
      (currentTime : Q) (arrangement : value) :
  truthy arrangement = true ->
  is_str (field arrangement "solo") s = true ->
  truthy (musicianScene arrangement m) = false ->
  is_str (field arrangement "solo") m = false ->
  is_str (field arrangement "pickup") m = false ->
  is_Some (initializeMusicianWeights tr !! m) ->
  exists ws wm,
    calculateDynamicWeight tr (initializeMusicianWeights tr) recentSoloists
                           s currentTime arrangement = Num ws
    /\ calculateDynamicWeight tr (initializeMusicianWeights tr) recentSoloists
                              m currentTime arrangement = Num wm
    /\ (ws <= 8)%Q /\ (10 <= wm)%Q /\ (ws < wm)%Q
    /\ (truthy (musicianScene arrangement s) = false -> ws = 1%Q)
    /\ (forall i, indexOf recentSoloists m = Some i ->
                  wm = (10 + inject_Z (Z.of_nat i))%Q)
    /\ (forall b, indexOf recentSoloists m = None ->
                  initializeMusicianWeights tr !! m = Some b ->
                  wm = (b + inject_Z (Z.of_nat (length recentSoloists)) * 5)%Q).
Proof.
  intros Harr Hsolo Hscene Hnsolo Hnpick [b Hb].
  assert (exists ws,
             calculateDynamicWeight tr (initializeMusicianWeights tr) recentSoloists
                                    s currentTime arrangement = Num ws
             /\ (ws <= 8)%Q
             /\ (truthy (musicianScene arrangement s) = false -> ws = 1%Q)) as (ws & Es & Hs & Hs1).
  { unfold calculateDynamicWeight. cbv zeta. rewrite Harr, Hsolo.
    destruct (truthy (musicianScene arrangement s)) eqn:Et.
    - destruct (is_str (musicianScene arrangement s) "lead");
        [exists 1%Q; repeat split; discriminate|].
      destruct (is_str (musicianScene arrangement s) "pickup").
      { destruct (calculatePickupWeight_range tr s currentTime) as (w & -> & _ & Hw).
        exists w. repeat split; [lra | discriminate]. }
      destruct (is_str (musicianScene arrangement s) "cooldown");
        [exists 5%Q; repeat split; discriminate|].
      destruct (is_str (musicianScene arrangement s) "harmony");
        [exists 7%Q; repeat split; discriminate|].
      destruct (is_str (musicianScene arrangement s) "rhythm");
        [exists 8%Q; repeat split; discriminate|].
      exists 6%Q; repeat split; discriminate.
    - exists 1%Q. repeat split. discriminate. }
  assert (0 <= inject_Z (Z.of_nat (length recentSoloists)))%Q as Hlen.
  { change 0%Q with (inject_Z 0). rewrite <- Zle_Qle. lia. }
  pose proof (initializeMusicianWeights_ge tr m b Hb) as Hb100.
  unfold calculateDynamicWeight at 2. cbv zeta. rewrite Harr, Hscene, Hnsolo, Hnpick, Hb.
  destruct (indexOf recentSoloists m) as [i|] eqn:Ei.
  - assert (0 <= inject_Z (Z.of_nat i))%Q as Hi.
    { change 0%Q with (inject_Z 0). rewrite <- Zle_Qle. lia. }
    exists ws, (10 + inject_Z (Z.of_nat i))%Q.
    repeat split; try assumption; try lra.
    + intros i' Hi'. now injection Hi' as <-.
    + intros b' Hn. discriminate.
  - exists ws, (b + inject_Z (Z.of_nat (length recentSoloists)) * 5)%Q.
    repeat split; try assumption; try lra.
    + intros i Hi. discriminate.
    + intros b' _ Hb'. now injection Hb' as <-.
Qed.

(** The ordering on [Examples.songTrack] at the sub-moment 55, where Alice
    has the [solo] and Bob, second in the ensemble, is not featured. *)
Lemma solo_outranks_non_featured_witness :
  let tr := Examples.songTrack in
  let arrangement := tget (processTimelineKeys tr) (Num 55) in
  exists ws wm,
    calculateDynamicWeight tr (initializeMusicianWeights tr) [] "Alice" 55 arrangement = Num ws
    /\ calculateDynamicWeight tr (initializeMusicianWeights tr) [] "Bob" 55 arrangement = Num wm
    /\ (ws < wm)%Q.
Proof.
  cbv zeta.
  destruct (solo_outranks_non_featured Examples.songTrack [] "Alice" "Bob" 55
              (tget (processTimelineKeys Examples.songTrack) (Num 55))
              eq_refl eq_refl eq_refl eq_refl eq_refl)
    as (ws & wm & E1 & E2 & _ & _ & Hlt & _).
  - exists 110%Q. reflexivity.
  - exists ws, wm. repeat split; assumption.
Defined.

(** Bob is second in the ensemble of [Examples.songTrack]. *)
Lemma initializeMusicianWeights_nth_witness :
  initializeMusicianWeights Examples.songTrack !! "Bob" = Some 110%Q.
Proof.
  apply (initializeMusicianWeights_nth Examples.songTrack 1 "Bob").
  - repeat constructor; simpl; intuition discriminate.
  - reflexivity.
Defined.

(** The recency list: the musician just added comes first, the list never
    holds more than three names, and it holds no name twice if it did not
    before. *)
Lemma addRecentSoloist_bounded (recentSoloists : list string) (musicianName : string) :
  (length (addRecentSoloist recentSoloists musicianName) <= 3)%nat
  /\ indexOf (addRecentSoloist recentSoloists musicianName) musicianName = Some 0%nat
  /\ (List.NoDup recentSoloists ->
      List.NoDup (addRecentSoloist recentSoloists musicianName)).
Proof.
  unfold addRecentSoloist. split; [apply firstn_le_length|].
  split; [simpl; now rewrite String.eqb_refl|].
  intros Hnd.
  set (rest := List.filter (fun name => negb (String.eqb name musicianName)) recentSoloists).
  assert (List.NoDup (musicianName :: rest)) as H.
  { constructor; [|now apply List.NoDup_filter].
    intros Hin. apply filter_In in Hin as [_ Hin].
    now rewrite String.eqb_refl in Hin. }
  rewrite <- (firstn_skipn 3 (musicianName :: rest)) in H.
  now apply NoDup_app_remove_r in H.
Qed.

(** ** Discovery: [queueNextSongByMusician] *)

Import State.

(** [Math.floor(Math.random() * n)] is an index below [n]. *)
Lemma randomIndex_lt (random : Q) (n : nat) :
  (0 <= random)%Q -> (random < 1)%Q -> (0 < n)%nat ->
  (Z.to_nat (Qfloor (random * inject_Z (Z.of_nat n))) < n)%nat.
Proof.
  intros H0 H1 Hn.
  set (x := (random * inject_Z (Z.of_nat n))%Q).
  assert (0 < inject_Z (Z.of_nat n))%Q as Hpos.
  { change 0%Q with (inject_Z 0). rewrite <- Zlt_Qlt. lia. }
  assert (0 <= x)%Q as Hx0 by (subst x; now apply Qmult_le_0_compat, Qlt_le_weak).
  assert (x < inject_Z (Z.of_nat n))%Q as Hx1.
  { subst x. rewrite <- (Qmult_1_l (inject_Z (Z.of_nat n))) at 2.
    now apply Qmult_lt_compat_r. }
  assert (0 <= Qfloor x)%Z as Hf0.
  { change 0%Z with (Qfloor 0). now apply Qfloor_resp_le. }
  assert (Qfloor x < Z.of_nat n)%Z as Hf1.
  { rewrite Zlt_Qlt. eapply Qle_lt_trans; [apply Qfloor_le | exact Hx1]. }
  lia.
Qed.

Lemma lookupCatalog_own (catalog : Catalog) (slug : string) (entry : CatalogEntry) :
  catalog !! slug = Some entry -> lookupCatalog catalog slug = Some entry.
Proof. unfold lookupCatalog. now intros ->. Qed.

Lemma lookupCatalog_is_Some (catalog : Catalog) (slug : string) :
  is_Some (lookupCatalog catalog slug)
  <-> is_Some (catalog !! slug) \/ inherited slug = true.
Proof.
  unfold lookupCatalog. destruct (catalog !! slug) as [entry|].
  - split; [intros _; left; now exists entry | intros _; now exists entry].
  - destruct (inherited slug).
    + split; [intros _; now right | intros _; now exists inheritedMember].
    + split; [intros [e He]; discriminate He|].
      intros [[e He]|He]; discriminate He.
Qed.

Lemma playable_iff (catalog : Catalog) (s : RabbitholeState) (conn : Connection) :
  playable catalog s conn = true <->
  is_Some (lookupCatalog catalog (normalizeSlug (song conn)))
  /\ (normalizeSlug (song conn) ∉ playedSongs s)
  /\ currentSongSlug s <> Some (normalizeSlug (song conn)).
Proof.
  unfold playable. cbv zeta.
  rewrite !andb_true_iff, !negb_true_iff, !bool_decide_eq_true, !bool_decide_eq_false.
  intuition congruence.
Qed.

(** The call never throws when [Math.random()] is in its range. *)
Lemma queueNextSong_returns (catalog : Catalog) (connectionsData : option (list Connection))
      (random : Q) (musicianName : string) (w : World) :
  (0 <= random)%Q -> (random < 1)%Q ->
  exists w', queueNextSongByMusician catalog connectionsData random musicianName w = Some w'.
Proof.
  intros H0 H1. unfold queueNextSongByMusician.
  destruct connectionsData as [l|]; [|now exists w].
  cbv zeta. destruct (List.filter (playable catalog (state w)) l) as [|c cs] eqn:E.
  - eexists. reflexivity.
  - pose proof (randomIndex_lt random (length (c :: cs)) H0 H1 ltac:(simpl; lia)) as Hlt.
    apply nth_error_Some in Hlt.
    destruct (nth_error (c :: cs) _) as [chosen|]; [|congruence].
    eexists. reflexivity.
Qed.

(** C3 at a song title that normalises to a name every object inherits.
    The catalog is empty, nothing is played, no song is current, and the one
    connection is the song ["Constructor"].  The filter's test
    [catalog[songSlug]] finds the inherited [constructor], so the song
    passes: ["constructor"] becomes the whole queue and [nextSong] names it
    (with no title), although the catalog has no such song.  With the
    catalog [{a, b, c}], [playedSongs = {a}], [currentSongSlug = b] and
    connections [[a, b, c]] the selection is [c], as the claim says. *)
Theorem inherited_name_selected :
  let connectionsData := [ {| song := "Constructor"; context := "" |} ] in
  let catalog : Catalog := ∅ in
  let w := construct ∅ in
  normalizeSlug "Constructor" = "constructor"
  /\ catalog !! "constructor" = None
  /\ playedSongs (state w) = ∅
  /\ currentSongSlug (state w) = None
  /\ List.filter (playable catalog (state w)) connectionsData = connectionsData
  /\ (exists w',
        queueNextSongByMusician catalog (Some connectionsData) (1 # 2) "Alice" w = Some w'
        /\ queue (state w') = ["constructor"]
        /\ nextSong (state w')
           = Some {| songSlug := Some "constructor"; songTitle := VUndefined;
                     viaMusician := "Alice" |})
  /\ (exists w',
        queueNextSongByMusician Examples.abcCatalog (Some Examples.abcConnections)
                                (1 # 2) "Alice" Examples.abcWorld = Some w'
        /\ queue (state w') = ["c"]).
Proof.
  cbv zeta. repeat split; try reflexivity.
  - eexists. split; [reflexivity|]. split; reflexivity.
  - eexists. split; [vm_compute; reflexivity|]. reflexivity.
Qed.

(** C7 as stated fails when there is no connections data: on
    [Examples.abcWorld] with [getConnections] resolving to [null] the call
    returns at once; [nextSong] is still [null] (not the "No songs queued"
    value) and no observer has been called. *)
Lemma no_connections_counterexample :
  let r := queueNextSongByMusician Examples.abcCatalog None (1 # 2) "Alice"
                                   Examples.abcWorld in
  r = Some Examples.abcWorld
  /\ nextSong (state Examples.abcWorld) = None
  /\ nextSong (state Examples.abcWorld) <> Some (noSongsQueued "Alice")
  /\ events Examples.abcWorld = [].
Proof. cbv zeta. repeat split; try reflexivity. discriminate. Qed.

(** C7, amended.  When [getConnections] resolves to a list, empty or not,
    none of whose entries passes the filter, the call puts in [nextSong] a
    value whose [songSlug] is [null], calls [onNextSongQueued] with it (once,
    after the calls made before), and changes nothing else.  When
    [getConnections] resolves to [null] the call returns without changing
    [nextSong] and without calling an observer.  In no case does the call
    throw, for a random value in [0, 1). *)
Theorem no_candidate_sentinel :
  (forall (catalog : Catalog) (connectionsData : list Connection) (random : Q)
          (musicianName : string) (w : World),
      List.filter (playable catalog (state w)) connectionsData = [] ->
      exists w',
        queueNextSongByMusician catalog (Some connectionsData) random musicianName w
        = Some w'
        /\ nextSong (state w') = Some (noSongsQueued musicianName)
        /\ songSlug (noSongsQueued musicianName) = None
        /\ events w' = (events w ++ [NextSongQueued (noSongsQueued musicianName)])%list
        /\ queue (state w') = queue (state w)
        /\ history (state w') = history (state w)
        /\ playedSongs (state w') = playedSongs (state w)
        /\ currentSongSlug (state w') = currentSongSlug (state w)
        /\ followingMusician (state w') = followingMusician (state w)
        /\ localStorage w' = localStorage w)
  /\ (forall (catalog : Catalog) (musicianName : string) (random : Q) (w : World),
        queueNextSongByMusician catalog (Some []) random musicianName w
        = Some (emit (with_state w
                        {| followingMusician := followingMusician (state w);
                           playedSongs := playedSongs (state w);
                           currentSongSlug := currentSongSlug (state w);
                           followMode := followMode (state w);
                           history := history (state w);
                           nextSong := Some (noSongsQueued musicianName);
                           queue := queue (state w) |})
                     (NextSongQueued (noSongsQueued musicianName))))
  /\ (forall (catalog : Catalog) (musicianName : string) (random : Q) (w : World),
        queueNextSongByMusician catalog None random musicianName w = Some w)
  /\ (forall (catalog : Catalog) (connectionsData : option (list Connection))
             (random : Q) (musicianName : string) (w : World),
        (0 <= random)%Q -> (random < 1)%Q ->
        queueNextSongByMusician catalog connectionsData random musicianName w <> None).
Proof.
  split.
  { intros catalog l random musicianName w E.
    unfold queueNextSongByMusician. cbv zeta. rewrite E.
    eexists. split; [reflexivity|]. simpl. repeat split. }
  split; [reflexivity|].
  split; [reflexivity|].
  intros catalog c random musicianName w H0 H1.
  destruct (queueNextSong_returns catalog c random musicianName w H0 H1) as [w' ->].
  discriminate.
Qed.

(** The theorem where every connection is filtered out: connections [[a, b]]
    with [a] played and [b] current. *)
Lemma no_candidate_sentinel_witness :
  exists w',
    queueNextSongByMusician Examples.abcCatalog
      (Some [ {| song := "a"; context := "" |}; {| song := "B"; context := "" |} ])
      (1 # 2) "Alice" Examples.abcWorld = Some w'
    /\ nextSong (state w')
       = Some {| songSlug := None; songTitle := VStr "No songs queued"; viaMusician := "Alice" |}
    /\ events w'
       = [NextSongQueued {| songSlug := None; songTitle := VStr "No songs queued";
                            viaMusician := "Alice" |}].
Proof.
  destruct (proj1 no_candidate_sentinel Examples.abcCatalog
              [ {| song := "a"; context := "" |}; {| song := "B"; context := "" |} ]
              (1 # 2) "Alice" Examples.abcWorld)
    as (w' & E & Hn & _ & He & _).
  - vm_compute. reflexivity.
  - exists w'. split; [exact E|]. split; [exact Hn | exact He].
Defined.

(** ** History: [setCurrentSong], [goBack], [isPlayable] *)

Lemma setCurrentSong_history (catalog : Catalog) (x : string) (w : World) :
  history (state (setCurrentSong catalog x w))
  = match currentSongSlug (state w), nextSong (state w) with
    | Some cur, Some next =>
        if set_slug (Some cur) then
          match lookupCatalog catalog cur with
          | Some currentSongData =>
              (history (state w)
                 ++ [{| songSlug := Some cur; songTitle := title currentSongData;
                        viaMusician := viaMusician next |}])%list
          | None => history (state w)
          end
        else history (state w)
    | _, _ => history (state w)
    end.
Proof. reflexivity. Qed.

Lemma setCurrentSong_played (catalog : Catalog) (x : string) (w : World) :
  playedSongs (state (setCurrentSong catalog x w))
  = match currentSongSlug (state w) with
    | Some cur => if set_slug (Some cur) then {[cur]} ∪ playedSongs (state w)
                  else playedSongs (state w)
    | None => playedSongs (state w)
    end.
Proof. reflexivity. Qed.

Lemma setCurrentSong_current (catalog : Catalog) (x : string) (w : World) :
  currentSongSlug (state (setCurrentSong catalog x w)) = Some x.
Proof. reflexivity. Qed.

Lemma set_slug_nonempty (p : string) : p <> "" -> set_slug (Some p) = true.
Proof.
  intros H. unfold set_slug. destruct (String.eqb_spec p ""); [contradiction | reflexivity].
Qed.

(** Following, queueing, popping and enqueueing leave the history, the played
    set and the current song alone. *)
Lemma act_frame (catalog : Catalog) (w : World) (a : QueueAction) :
  history (state (act catalog w a)) = history (state w)
  /\ playedSongs (state (act catalog w a)) = playedSongs (state w)
  /\ currentSongSlug (state (act catalog w a)) = currentSongSlug (state w).
Proof.
  destruct a as [name | c random name | | slug]; simpl.
  - repeat split.
  - unfold queueNextSongByMusician. destruct c as [l|]; [|repeat split].
    cbv zeta. destruct (List.filter (playable catalog (state w)) l); [repeat split|].
    destruct (nth_error _ _); repeat split.
  - unfold popNextSong. destruct (queue (state w)); repeat split.
  - repeat split.
Qed.

Lemma acts_frame (catalog : Catalog) (actions : list QueueAction) (w : World) :
  history (state (fold_left (act catalog) actions w)) = history (state w)
  /\ playedSongs (state (fold_left (act catalog) actions w)) = playedSongs (state w)
  /\ currentSongSlug (state (fold_left (act catalog) actions w)) = currentSongSlug (state w).
Proof.
  revert w. induction actions as [|a actions IH]; intros w; simpl; [repeat split|].
  destruct (IH (act catalog w a)) as (H1 & H2 & H3).
  destruct (act_frame catalog w a) as (F1 & F2 & F3).
  repeat split; congruence.
Qed.

(** C4 as stated fails when no recommendation is pending: on
    [Examples.abcWorld] (current song [b], [nextSong] null),
    [setCurrentSong(c)] followed by [goBack()] returns [null], and [b] stays
    in [playedSongs], so [isPlayable(b)] is false.  It also fails when another
    [setCurrentSong] comes in between: on [Examples.followingWorld],
    [setCurrentSong(c)], [setCurrentSong(a)], [goBack()] gives the entry for
    [c], not for [b]. *)
Lemma history_back_counterexample :
  let w1 := setCurrentSong Examples.abcCatalog "c" Examples.abcWorld in
  let w2 := setCurrentSong Examples.abcCatalog "a"
              (setCurrentSong Examples.abcCatalog "c" Examples.followingWorld) in
  currentSongSlug (state Examples.abcWorld) = Some "b"
  /\ is_Some (Examples.abcCatalog !! "b")
  /\ snd (goBack w1) = None
  /\ isPlayable Examples.abcCatalog "b" (fst (goBack w1)) = false
  /\ currentSongSlug (state Examples.followingWorld) = Some "b"
  /\ snd (goBack w2)
     = Some {| songSlug := Some "c"; songTitle := VStr "C"; viaMusician := "Alice" |}
  /\ isPlayable Examples.abcCatalog "b" (fst (goBack w2)) = false.
Proof.
  cbv zeta. repeat split; try reflexivity.
  exists {| title := VStr "B" |}. reflexivity.
Qed.

(** C4, amended.  In a state whose current song [x0] is set (a non-empty
    slug) and is in the catalog, and in which a recommendation is pending
    ([nextSong] is not null): after [setCurrentSong(x)] with [x] other than
    [x0], then any number of follow, queue, pop and enqueue operations (no
    [setCurrentSong], [goBack] or [clear]), [goBack()] returns the entry for
    [x0] (its catalog title, and the musician of the recommendation that was
    pending), puts the history back as it was, and removes [x0] from
    [playedSongs], so that [isPlayable(x0)] holds. *)
Theorem history_back_round_trip
        (catalog : Catalog) (w : World) (x x0 : string) (next : SongRef)
        (entry : CatalogEntry) (actions : list QueueAction) :
  currentSongSlug (state w) = Some x0 ->
  x0 <> "" ->
  nextSong (state w) = Some next ->
  catalog !! x0 = Some entry ->
  x0 <> x ->
  let w1 := fold_left (act catalog) actions (setCurrentSong catalog x w) in
  snd (goBack w1)
  = Some {| songSlug := Some x0; songTitle := title entry;
            viaMusician := viaMusician next |}
  /\ history (state (fst (goBack w1))) = history (state w)
  /\ (x0 ∉ playedSongs (state (fst (goBack w1))))
  /\ isPlayable catalog x0 (fst (goBack w1)) = true.
Proof.
  intros Hcur Hne Hnext Hcat Hx w1.
  destruct (acts_frame catalog actions (setCurrentSong catalog x w)) as (F1 & F2 & F3).
  fold w1 in F1, F2, F3.
  pose proof (set_slug_nonempty x0 Hne) as Hset.
  assert (history (state w1)
          = (history (state w)
               ++ [{| songSlug := Some x0; songTitle := title entry;
                      viaMusician := viaMusician next |}])%list) as Hh.
  { rewrite F1, setCurrentSong_history.
    now rewrite Hcur, Hnext, Hset, (lookupCatalog_own _ _ _ Hcat). }
  assert (currentSongSlug (state w1) = Some x) as Hc
      by (rewrite F3; apply setCurrentSong_current).
  unfold goBack. rewrite Hh, last_snoc, removelast_last. cbn [fst snd state with_state
    songSlug playedSongs history currentSongSlug].
  split; [reflexivity|]. split; [reflexivity|].
  assert (x0 ∉ playedSongs (state w1) ∖ {[x0]}) as Hnot.
  { intros Hin. apply elem_of_difference in Hin as [_ Hin].
    apply Hin. now apply elem_of_singleton. }
  split; [exact Hnot|].
  unfold isPlayable. cbn [fst snd state with_state songSlug playedSongs history
    currentSongSlug]. rewrite Hc.
  rewrite !andb_true_iff, !negb_true_iff, !bool_decide_eq_true, !bool_decide_eq_false.
  repeat split; [exists entry; now apply lookupCatalog_own | exact Hnot | congruence].
Qed.

(** The theorem on [Examples.followingWorld]: play [c], re-follow and
    re-queue, then go back to [b]. *)
Lemma history_back_round_trip_witness :
  let w1 := fold_left (act Examples.abcCatalog)
                      [Follow "Bob"; Requeue (Some Examples.abcConnections) (1 # 2) "Bob"; Pop]
                      (setCurrentSong Examples.abcCatalog "c" Examples.followingWorld) in
  snd (goBack w1)
  = Some {| songSlug := Some "b"; songTitle := VStr "B"; viaMusician := "Alice" |}
  /\ isPlayable Examples.abcCatalog "b" (fst (goBack w1)) = true.
Proof.
  cbv zeta.
  pose proof (history_back_round_trip Examples.abcCatalog Examples.followingWorld
                "c" "b" {| songSlug := Some "c"; songTitle := VStr "C"; viaMusician := "Alice" |}
                {| title := VStr "B" |}
                [Follow "Bob"; Requeue (Some Examples.abcConnections) (1 # 2) "Bob"; Pop]
                eq_refl ltac:(discriminate) eq_refl eq_refl ltac:(discriminate)) as H.
  cbv zeta in H. destruct H as (H1 & _ & _ & H4).
  split; [exact H1 | exact H4].
Defined.

(** C10 at a current song whose slug is a name every object inherits.  On
    [Examples.constructorWorld] the current song is ["constructor"] and a
    recommendation is pending; the catalog [{a, b, c}] has no such song.
    [setCurrentSong("a")] marks ["constructor"] as played and, because
    [catalog[this.currentSongSlug]] finds the inherited [constructor], also
    appends a history entry for it (with no title); [goBack()] then returns
    that entry.  For a current song that is neither in the catalog nor an
    inherited name (["zzz"]), the same call marks it played and leaves the
    history empty, as the claim says. *)
Theorem inherited_name_in_history :
  let w := Examples.constructorWorld in
  let w' := setCurrentSong Examples.abcCatalog "a" w in
  currentSongSlug (state w) = Some "constructor"
  /\ Examples.abcCatalog !! "constructor" = None
  /\ history (state w) = []
  /\ ("constructor" ∈ playedSongs (state w'))
  /\ history (state w')
     = [{| songSlug := Some "constructor"; songTitle := VUndefined;
           viaMusician := "Alice" |}]
  /\ snd (goBack w')
     = Some {| songSlug := Some "constructor"; songTitle := VUndefined;
               viaMusician := "Alice" |}
  /\ (let v := Examples.unknownSongWorld in
      let v' := setCurrentSong Examples.abcCatalog "a" v in
      currentSongSlug (state v) = Some "zzz"
      /\ Examples.abcCatalog !! "zzz" = None
      /\ ("zzz" ∈ playedSongs (state v'))
      /\ history (state v') = []
      /\ isPlayable Examples.abcCatalog "zzz" v' = false).
Proof.
  cbv zeta. repeat split; try reflexivity;
    apply elem_of_union_l, elem_of_singleton_2; reflexivity.
Qed.

(** ** Persistence: [saveToStorage], [loadFromStorage] and the constructor *)

Lemma strings_of_strings (l : list string) : strings_of (map VStr l) = l.
Proof.
  unfold strings_of. induction l as [|x l IH]; simpl; [reflexivity|]. now rewrite IH.
Qed.

Lemma load_after_save (w : World) (storage0 : RabbitholeState) (ev : list Event) :
  loadFromStorage {| state := storage0;
                     localStorage := localStorage (saveToStorage w);
                     events := ev |}
  = ({| state :=
          {| followingMusician := followingMusician storage0;
             playedSongs := playedSongs (state w);
             currentSongSlug := currentSongSlug storage0;
             followMode := if truthy (followMode (state w))
                           then followMode (state w) else VStr "same";
             history := history storage0;
             nextSong := nextSong storage0;
             queue := queue storage0 |};
        localStorage := localStorage (saveToStorage w);
        events := ev |},
     toSave (state w)).
Proof.
  unfold loadFromStorage, saveToStorage.
  cbn [localStorage state events].
  rewrite lookup_insert_eq. cbv zeta.
  change (field (toSave (state w)) "playedSongs")
    with (VArr (map VStr (elements (playedSongs (state w))))).
  change (field (toSave (state w)) "followMode") with (followMode (state w)).
  cbn [truthy]. cbv iota.
  rewrite strings_of_strings, list_to_set_elements_L.
  reflexivity.
Qed.

(** C8 as stated fails: on [Examples.followingWorld] (following Alice,
    current song [b]) a save followed by the construction of a new state gives
    a state that follows nobody and has no current song. *)
Lemma persistence_counterexample :
  let fresh := construct (localStorage (saveToStorage Examples.followingWorld)) in
  followingMusician (state Examples.followingWorld) = Some "Alice"
  /\ followingMusician (state fresh) = None
  /\ currentSongSlug (state Examples.followingWorld) = Some "b"
  /\ currentSongSlug (state fresh) = None.
Proof.
  cbv zeta. unfold construct. rewrite load_after_save. repeat split.
Qed.

(** C8, amended.  [saveToStorage] writes, under the one key
    ["rabbitholeState"] and touching no other key, an object with exactly the
    four fields [followingMusician], [playedSongs] (as an array),
    [currentSongSlug] and [followMode].  A state constructed afterwards has
    the saved [playedSongs], and the saved [followMode] (["same"] if the saved
    one was falsy); its [followingMusician] and [currentSongSlug] are [null]
    and its history and queue are empty: those two saved fields are handed
    back in the value [loadFromStorage] returns, and are not put into the
    state. *)
Theorem persistence_round_trip (w : World) :
  let saved := saveToStorage w in
  let fresh := construct (localStorage saved) in
  localStorage saved !! storageKey = Some (toSave (state w))
  /\ (forall k, k <> storageKey -> localStorage saved !! k = localStorage w !! k)
  /\ toSave (state w)
     = VObj [ ("followingMusician", opt_str (followingMusician (state w)));
              ("playedSongs", VArr (map VStr (elements (playedSongs (state w)))));
              ("currentSongSlug", opt_str (currentSongSlug (state w)));
              ("followMode", followMode (state w)) ]
  /\ playedSongs (state fresh) = playedSongs (state w)
  /\ followMode (state fresh)
     = (if truthy (followMode (state w)) then followMode (state w) else VStr "same")
  /\ followingMusician (state fresh) = None
  /\ currentSongSlug (state fresh) = None
  /\ history (state fresh) = []
  /\ nextSong (state fresh) = None
  /\ queue (state fresh) = []
  /\ snd (loadFromStorage {| state := initialState;
                             localStorage := localStorage saved;
                             events := [] |})
     = toSave (state w).
Proof.
  cbv zeta. unfold construct. rewrite load_after_save.
  split; [apply lookup_insert_eq|].
  split; [intros k Hk; now apply lookup_insert_ne|].
  repeat split.
Qed.

(** ** More about sorting: order of the result, and filtering *)

Section SortOrder.
Context {A : Type} (after : A -> A -> bool) (ok : A -> Prop).
Hypothesis after_asym :
  forall a b, ok a -> ok b -> after a b = true -> after b a = false.
Hypothesis before_trans :
  forall a b c, ok a -> ok b -> ok c ->
                after a b = false -> after b c = false -> after a c = false.

Lemma insert_sorted_Forall (P : A -> Prop) (x : A) (l : list A) :
  P x -> Forall P l -> Forall P (insert_sorted after x l).
Proof.
  intros Hx Hl. rewrite List.Forall_forall in *. intros y Hy.
  apply (Permutation_in _ (Permutation_sym (insert_sorted_perm after x l))) in Hy.
  destruct Hy as [<-|Hy]; auto.
Qed.

Lemma sort_Forall (P : A -> Prop) (l : list A) :
  Forall P l -> Forall P (sort after l).
Proof.
  intros Hl. rewrite List.Forall_forall in *. intros y Hy. apply sort_In in Hy. auto.
Qed.

Lemma insert_sorted_strongly (x : A) (l : list A) :
  ok x -> Forall ok l ->
  StronglySorted (fun a b => after a b = false) l ->
  StronglySorted (fun a b => after a b = false) (insert_sorted after x l).
Proof.
  intros Hx. induction l as [|y l IH]; intros Hok Hs; simpl.
  - repeat constructor.
  - inversion Hok as [|? ? Hy Hl]; subst. inversion Hs as [|? ? Hs' Hall]; subst.
    destruct (after x y) eqn:E.
    + constructor; [now apply IH|].
      apply insert_sorted_Forall; [now apply after_asym | exact Hall].
    + constructor; [exact Hs|]. constructor; [exact E|].
      rewrite List.Forall_forall in *. intros z Hz.
      apply (before_trans x y z); auto.
Qed.

Lemma sort_strongly (l : list A) :
  Forall ok l -> StronglySorted (fun a b => after a b = false) (sort after l).
Proof.
  induction l as [|x l IH]; intros Hok; simpl; [constructor|].
  inversion Hok; subst.
  apply insert_sorted_strongly; [assumption | now apply sort_Forall | now apply IH].
Qed.

Lemma filter_insert_out (p : A -> bool) (x : A) (l : list A) :
  p x = false -> List.filter p (insert_sorted after x l) = List.filter p l.
Proof.
  intros Hp. induction l as [|y l IH]; simpl; [now rewrite Hp|].
  destruct (after x y); simpl.
  - now rewrite IH.
  - now rewrite Hp.
Qed.

Lemma insert_sorted_first (x : A) (l : list A) :
  Forall (fun z => after x z = false) l -> insert_sorted after x l = x :: l.
Proof.
  destruct l as [|y l]; [reflexivity|]. intros H. inversion H as [|? ? Hy _]; subst.
  simpl. now rewrite Hy.
Qed.

Lemma filter_insert_in (p : A -> bool) (x : A) (l : list A) :
  p x = true -> ok x -> Forall ok l ->
  StronglySorted (fun a b => after a b = false) l ->
  List.filter p (insert_sorted after x l) = insert_sorted after x (List.filter p l).
Proof.
  intros Hp Hx. induction l as [|y l IH]; intros Hok Hs; simpl.
  - now rewrite Hp.
  - inversion Hok as [|? ? Hy Hl]; subst. inversion Hs as [|? ? Hs' Hall]; subst.
    destruct (after x y) eqn:E; simpl.
    + destruct (p y); simpl; rewrite IH by assumption; [now rewrite E | reflexivity].
    + rewrite Hp. destruct (p y) eqn:Hpy; simpl; [now rewrite E|].
      symmetry. apply insert_sorted_first.
      rewrite List.Forall_forall in *. intros z Hz. apply filter_In in Hz as [Hz _].
      apply (before_trans x y z); auto.
Qed.

(** Filtering before or after the sort gives the same list. *)
Lemma filter_sort (p : A -> bool) (l : list A) :
  Forall ok l -> List.filter p (sort after l) = sort after (List.filter p l).
Proof.
  induction l as [|x l IH]; intros Hok; simpl; [reflexivity|].
  inversion Hok; subst. destruct (p x) eqn:Hp; simpl.
  - rewrite filter_insert_in; auto using sort_Forall, sort_strongly.
    now rewrite IH.
  - rewrite filter_insert_out by assumption. now apply IH.
Qed.
End SortOrder.

Lemma sort_length {A : Type} (after : A -> A -> bool) (l : list A) :
  length (sort after l) = length l.
Proof. symmetry. apply Permutation_length, sort_perm. Qed.

Lemma sort_map {A B : Type} (f : A -> B) (after : A -> A -> bool)
      (after' : B -> B -> bool) (l : list A) :
  (forall a b, after' (f a) (f b) = after a b) ->
  sort after' (map f l) = map f (sort after l).
Proof.
  intros H. induction l as [|x l IH]; simpl; [reflexivity|]. rewrite IH.
  generalize (sort after l). intros s. induction s as [|y s IHs]; simpl; [reflexivity|].
  rewrite H. destruct (after x y); simpl; [now rewrite IHs | reflexivity].
Qed.

(** *** The two orders on time keys *)

Lemma num_lt_asym (a b : number) : num_lt a b = true -> num_lt b a = false.
Proof.
  destruct a as [|x], b as [|y]; simpl; try discriminate.
  rewrite negb_true_iff, negb_false_iff. intros H.
  apply Qle_bool_iff. destruct (Qlt_le_dec y x) as [L|L]; [|exact L].
  apply Qlt_le_weak, Qle_bool_iff in L. congruence.
Qed.

Lemma num_lt_false (x y : Q) : num_lt (Num x) (Num y) = false <-> (y <= x)%Q.
Proof. simpl. now rewrite negb_false_iff, Qle_bool_iff. Qed.

Lemma num_lt_true (x y : Q) : num_lt (Num x) (Num y) = true <-> (x < y)%Q.
Proof.
  simpl. rewrite negb_true_iff. split.
  - intros H. apply Qnot_le_lt. intros L. apply Qle_bool_iff in L. congruence.
  - intros H. destruct (Qle_bool y x) eqn:E; [|reflexivity].
    apply Qle_bool_iff in E. exfalso. apply (Qlt_not_le _ _ H E).
Qed.

Lemma num_le_true (x y : Q) : num_le (Num x) (Num y) = true <-> (x <= y)%Q.
Proof. simpl. apply Qle_bool_iff. Qed.

Lemma num_le_false (x y : Q) : num_le (Num x) (Num y) = false <-> (y < x)%Q.
Proof.
  simpl. split.
  - intros H. apply Qnot_le_lt. intros L. apply Qle_bool_iff in L. congruence.
  - intros H. destruct (Qle_bool x y) eqn:E; [|reflexivity].
    apply Qle_bool_iff in E. exfalso. apply (Qlt_not_le _ _ H E).
Qed.

(** [byTime] puts entries with number keys in ascending order. *)
Lemma byTime_sorted (p : timed) :
  Forall timeKey p ->
  StronglySorted (fun a b => num_lt (fst b) (fst a) = false) (byTime p).
Proof.
  intros H. unfold byTime.
  apply (sort_strongly (fun a b => num_lt (fst b) (fst a)) timeKey); [| |exact H].
  - intros a b _ _. apply num_lt_asym.
  - intros [[|x] va] [[|y] vb] [[|z] vc]; unfold timeKey; simpl; try discriminate.
    intros _ _ _. rewrite !negb_false_iff, !Qle_bool_iff. intros; lra.
Qed.

Lemma byTime_filter (f : number * value -> bool) (p : timed) :
  Forall timeKey p -> List.filter f (byTime p) = byTime (List.filter f p).
Proof.
  intros H. unfold byTime.
  apply (filter_sort (fun a b => num_lt (fst b) (fst a)) timeKey); [| |exact H].
  - intros a b _ _. apply num_lt_asym.
  - intros [[|x] va] [[|y] vb] [[|z] vc]; unfold timeKey; simpl; try discriminate.
    intros _ _ _. rewrite !negb_false_iff, !Qle_bool_iff. intros; lra.
Qed.

(** ** Queries on the resolved timeline *)

Lemma StronglySorted_nth {A : Type} (R : A -> A -> Prop) (l : list A) :
  StronglySorted R l ->
  forall i j a b, (i < j)%nat -> nth_error l i = Some a -> nth_error l j = Some b -> R a b.
Proof.
  induction 1 as [|x l Hs IH Hall]; intros i j a b Hij Hi Hj.
  - destruct i; discriminate.
  - destruct j as [|j]; [lia|]. simpl in Hj. destruct i as [|i]; simpl in Hi.
    + injection Hi as <-. rewrite List.Forall_forall in Hall.
      apply Hall. eapply nth_error_In; eassumption.
    + apply (IH i j); [lia | assumption | assumption].
Qed.

(** The loop of [getCurrentPartIndex]: the start value if no entry passes,
    else the index of the last entry that does. *)
Lemma last_index_spec {B : Type} (pass : B -> bool) (l : list B) (k : nat) (a : Z) :
  let r := fold_left (fun act (ie : nat * B) =>
                        if pass (snd ie) then Z.of_nat (fst ie) else act)
                     (combine (seq k (length l)) l) a in
  (r = a /\ Forall (fun e => pass e = false) l)
  \/ (exists i e, r = Z.of_nat (k + i) /\ nth_error l i = Some e /\ pass e = true
                  /\ forall j e', (i < j)%nat -> nth_error l j = Some e' -> pass e' = false).
Proof.
  cbv zeta. revert k a. induction l as [|x l IH]; intros k a; simpl.
  - left. split; [reflexivity | constructor].
  - destruct (IH (S k) (if pass x then Z.of_nat k else a)) as [[Hr Hall]|(i & e & Hr & Hi & Hp & Hlater)].
    + destruct (pass x) eqn:Px.
      * right. exists 0%nat, x. rewrite Hr, Nat.add_0_r. repeat split; try assumption.
        intros [|j] e' Hj He'; [lia|]. simpl in He'.
        rewrite List.Forall_forall in Hall. apply Hall. eapply nth_error_In; eassumption.
      * left. split; [exact Hr|]. now constructor.
    + right. exists (S i), e. rewrite Hr. repeat split; try assumption.
      * f_equal. lia.
      * intros [|j] e' Hj He'; [lia|]. simpl in He'. apply (Hlater j); [lia | assumption].
Qed.

Lemma partEntries_keys (tr : TrackData) :
  Forall timeKey (processTimelineKeys tr) -> Forall timeKey (partEntries tr).
Proof.
  intros H. unfold partEntries, byTime. apply sort_Forall.
  rewrite List.Forall_forall in *. intros e He. apply filter_In in He as [He _]. auto.
Qed.

Lemma partEntries_parts (tr : TrackData) :
  Forall timeKey (processTimelineKeys tr) ->
  map (fun e => field (snd e) "part") (partEntries tr) = extractSongParts tr.
Proof.
  intros H. unfold partEntries, extractSongParts. now rewrite byTime_filter.
Qed.

(** The index [getCurrentPartIndex] returns is an index into the sequence
    [extractSongParts] returns.  When every resolved key is a number, the two
    functions go through the same entries in the same order (one filters and
    then sorts, the other sorts and then filters), and the index is -1 when no
    part has started at [currentTime], and otherwise the index of the last
    part that has: every part up to it has started, none after it has. *)
Theorem current_part_index (tr : TrackData) (currentTime : Q) :
  Forall timeKey (processTimelineKeys tr) ->
  let idx := getCurrentPartIndex tr currentTime in
  let started (e : number * value) := num_le (fst e) (Num currentTime) in
  map (fun e => field (snd e) "part") (partEntries tr) = extractSongParts tr
  /\ (-1 <= idx < Z.of_nat (length (extractSongParts tr)))%Z
  /\ (idx = (-1)%Z <-> Forall (fun e => started e = false) (partEntries tr))
  /\ ((0 <= idx)%Z ->
      exists e,
        nth_error (partEntries tr) (Z.to_nat idx) = Some e
        /\ nth_error (extractSongParts tr) (Z.to_nat idx) = Some (field (snd e) "part")
        /\ started e = true
        /\ (forall j e', (j < Z.to_nat idx)%nat ->
                         nth_error (partEntries tr) j = Some e' -> started e' = true)
        /\ (forall j e', (Z.to_nat idx < j)%nat ->
                         nth_error (partEntries tr) j = Some e' -> started e' = false)).
Proof.
  intros Hkeys idx started.
  pose proof (partEntries_parts tr Hkeys) as Hparts.
  pose proof (partEntries_keys tr Hkeys) as Hpk.
  assert (length (extractSongParts tr) = length (partEntries tr)) as Hlen
      by (rewrite <- Hparts; apply length_map).
  split; [exact Hparts|].
  pose proof (last_index_spec started (partEntries tr) 0 (-1)%Z) as Hspec.
  cbv zeta in Hspec. change (fold_left _ _ _) with idx in Hspec.
  destruct Hspec as [[Hr Hall]|(i & e & Hr & Hi & Hp & Hlater)].
  - split; [rewrite Hr; lia|]. split; [tauto|]. rewrite Hr. lia.
  - simpl in Hr.
    assert (i < length (partEntries tr))%nat as Hi'
        by (apply nth_error_Some; congruence).
    split; [rewrite Hr, Hlen; lia|].
    split.
    { split; [rewrite Hr; lia|]. intros Hall. rewrite List.Forall_forall in Hall.
      apply nth_error_In in Hi. apply Hall in Hi. congruence. }
    intros _. exists e. rewrite Hr, Nat2Z.id.
    split; [exact Hi|].
    split; [rewrite <- Hparts;
            exact (map_nth_error (fun x : number * value => field (snd x) "part") _ _ Hi)|].
    split; [exact Hp|].
    split; [|exact Hlater].
    intros j e' Hj He'.
    assert (timeKey e /\ timeKey e') as [Ke Ke'].
    { pose proof (proj1 (List.Forall_forall _ _) Hpk) as Hpk'.
      split; apply Hpk'; eapply nth_error_In; eassumption. }
    assert (Forall timeKey (List.filter (fun x => countsAsPart (snd x))
                                        (processTimelineKeys tr))) as Hfk.
    { pose proof (proj1 (List.Forall_forall _ _) Hkeys) as Hk'.
      apply List.Forall_forall. intros x Hx. apply filter_In in Hx as [Hx _]. auto. }
    pose proof (StronglySorted_nth _ _ (byTime_sorted _ Hfk) j i e' e Hj He' Hi) as Hord.
    unfold started in *. unfold timeKey in *.
    destruct (fst e) as [|x]; [discriminate|]. destruct (fst e') as [|y]; [discriminate|].
    apply num_lt_false in Hord. apply num_le_true in Hp. apply num_le_true. lra.
Qed.

(** The theorem on [Examples.songTrack] at time 45: of the parts intro (0),
    kick (10), verse (40), chorus (60), outro (90), the third is current. *)
Lemma current_part_index_witness :
  Forall timeKey (processTimelineKeys Examples.songTrack)
  /\ getCurrentPartIndex Examples.songTrack 45 = 2%Z
  /\ map (fun e => field (snd e) "part") (partEntries Examples.songTrack)
     = [VStr "intro"; VStr "kick"; VStr "verse"; VStr "chorus"; VStr "outro"]
  /\ (-1 <= getCurrentPartIndex Examples.songTrack 45
       < Z.of_nat (length (extractSongParts Examples.songTrack)))%Z.
Proof.
  assert (Forall timeKey (processTimelineKeys Examples.songTrack)) as H
      by (vm_compute; repeat constructor).
  pose proof (current_part_index Examples.songTrack 45 H) as (Hp & Hb & _).
  split; [exact H|]. split; [reflexivity|]. split; [rewrite Hp; reflexivity | exact Hb].
Defined.

Lemma tget_same_key (p : timed) (a b : number) :
  same_key a b = true -> tget p a = tget p b.
Proof.
  intros H. induction p as [|[t v] p IH]; simpl; [reflexivity|].
  destruct (same_key t a) eqn:E.
  - now rewrite (same_key_trans _ _ _ E H).
  - now rewrite (same_key_false_l _ _ _ E H).
Qed.

Lemma get_num_Qeq (o : obj) (t t' : Q) : (t == t')%Q -> get_num o t = get_num o t'.
Proof.
  intros H. assert (same_key (Num t) (Num t') = true) as Hk by now apply Qeq_bool_iff.
  induction o as [|[k v] o IH]; simpl; [reflexivity|].
  destruct (canonical_key k); simpl; [|exact IH].
  destruct (same_key (Number k) (Num t)) eqn:E.
  - now rewrite (same_key_trans _ _ _ E Hk).
  - now rewrite (same_key_false_l _ _ _ E Hk).
Qed.

Lemma processedAt_Qeq (tr : TrackData) (t t' : Q) :
  (t == t')%Q -> processedAt tr t = processedAt tr t'.
Proof.
  intros H. unfold processedAt. destruct (negb (truthy (standardSectionLength tr))).
  - now apply get_num_Qeq.
  - apply tget_same_key. now apply Qeq_bool_iff.
Qed.

Lemma find_first {A : Type} (f : A -> bool) (l : list A) (x : A) :
  find f l = Some x ->
  exists l1 l2, l = (l1 ++ x :: l2)%list /\ Forall (fun y => f y = false) l1 /\ f x = true.
Proof.
  induction l as [|y l IH]; simpl; [discriminate|].
  destruct (f y) eqn:E.
  - intros [= ->]. exists [], l. repeat split; [constructor | exact E].
  - intros H. destruct (IH H) as (l1 & l2 & -> & H1 & Hx).
    exists (y :: l1), l2. repeat split; [now constructor | exact Hx].
Qed.

Lemma StronglySorted_tail {A : Type} (R : A -> A -> Prop) (l1 l2 : list A) :
  StronglySorted R (l1 ++ l2) -> StronglySorted R l2.
Proof.
  induction l1 as [|x l1 IH]; simpl; [tauto|].
  intros H. inversion H; subst. now apply IH.
Qed.

Lemma startTimes_sorted (tr : TrackData) :
  Forall timeKey (processTimelineKeys tr) ->
  Forall (fun t => isNaN t = false) (startTimes tr)
  /\ StronglySorted (fun a b => num_lt a b = false) (startTimes tr).
Proof.
  intros H. unfold startTimes.
  assert (Forall (fun t => isNaN t = false) (map fst (processTimelineKeys tr))) as Hk.
  { apply List.Forall_forall. intros t Ht. apply in_map_iff in Ht as (e & <- & He).
    exact (proj1 (List.Forall_forall _ _) H e He). }
  split; [now apply sort_Forall|].
  apply (sort_strongly (fun a b => num_lt a b) (fun t => isNaN t = false)); [| |exact Hk].
  - intros a b _ _. apply num_lt_asym.
  - intros [|x] [|y] [|z]; simpl; try discriminate.
    intros _ _ _. rewrite !negb_false_iff, !Qle_bool_iff. intros; lra.
Qed.

Lemma startTimes_In (tr : TrackData) (t : number) :
  In t (startTimes tr) <-> exists e, In e (processTimelineKeys tr) /\ fst e = t.
Proof.
  unfold startTimes. rewrite sort_In, in_map_iff. split; intros (e & H1 & H2); exists e; tauto.
Qed.

(** [getCurrentArrangement] returns what the resolved timeline holds at its
    greatest key that is at most [currentTime], and what it holds under the
    name ["undefined"] (nothing, for a track with sections) when
    [currentTime] is before every key; every resolved key is assumed to be a
    number. *)
Theorem arrangement_at_time (tr : TrackData) (currentTime : Q) :
  Forall timeKey (processTimelineKeys tr) ->
  ((forall e q, In e (processTimelineKeys tr) -> fst e = Num q -> (currentTime < q)%Q) ->
   getCurrentArrangement tr currentTime
   = if negb (truthy (standardSectionLength tr))
     then get (timeline tr) "undefined" else VUndefined)
  /\ (forall e t,
        In e (processTimelineKeys tr) -> fst e = Num t -> (t <= currentTime)%Q ->
        (forall e' q, In e' (processTimelineKeys tr) -> fst e' = Num q ->
                      (q <= currentTime)%Q -> (q <= t)%Q) ->
        getCurrentArrangement tr currentTime = processedAt tr t).
Proof.
  intros Hkeys. destruct (startTimes_sorted tr Hkeys) as [Hnum Hsorted].
  unfold getCurrentArrangement. split.
  - intros Hbefore.
    destruct (find _ (startTimes tr)) as [[|t0]|] eqn:E; try reflexivity.
    apply find_some in E as [Hin Hle]. apply startTimes_In in Hin as (e & He & Hfst).
    apply num_le_true in Hle. specialize (Hbefore e t0 He Hfst). lra.
  - intros e t He Hfst Ht Hmax.
    destruct (find _ (startTimes tr)) as [[|t0]|] eqn:E.
    + apply find_some in E as [_ E]. discriminate.
    + apply processedAt_Qeq.
      destruct (find_first _ _ _ E) as (l1 & l2 & Hsplit & Hl1 & Hle).
      apply num_le_true in Hle.
      assert (In (Num t0) (startTimes tr)) as Hin0
          by (rewrite Hsplit; apply in_or_app; right; now left).
      apply startTimes_In in Hin0 as (e0 & He0 & Hfst0).
      pose proof (Hmax e0 t0 He0 Hfst0 Hle) as H1.
      assert (In (Num t) (startTimes tr)) as Hint
          by (apply startTimes_In; now exists e).
      rewrite Hsplit in Hint, Hsorted.
      apply in_app_or in Hint as [Hint|[Hint|Hint]].
      * pose proof (proj1 (List.Forall_forall _ _) Hl1 _ Hint) as Hf.
        apply num_le_false in Hf. lra.
      * injection Hint as ->. reflexivity.
      * apply StronglySorted_tail in Hsorted.
        inversion Hsorted as [|? ? _ Hall]; subst.
        pose proof (proj1 (List.Forall_forall _ _) Hall _ Hint) as Hord.
        apply num_lt_false in Hord. apply Qle_antisym; assumption.
    + exfalso.
      assert (In (Num t) (startTimes tr)) as Hint
          by (apply startTimes_In; now exists e).
      pose proof (find_none _ _ E (Num t) Hint) as Hn. cbv beta in Hn.
      rewrite (proj2 (num_le_true t currentTime) Ht) in Hn. discriminate.
Qed.

(** The theorem on [Examples.songTrack] (keys 0, 10, 40, 55, 60, 90): at
    time 58 the arrangement is the sub-moment at 55. *)
Lemma arrangement_at_time_witness :
  getCurrentArrangement Examples.songTrack 58
  = VObj [("part", VStr "break"); ("length", VNum 20); ("solo", VStr "Alice");
          ("_isSubMoment", VBool true)].
Proof.
  assert (Forall timeKey (processTimelineKeys Examples.songTrack)) as H
      by (vm_compute; repeat constructor).
  destruct (arrangement_at_time Examples.songTrack 58 H) as [_ Hat].
  rewrite (Hat (Num 55, tget (processTimelineKeys Examples.songTrack) (Num 55)) 55%Q).
  - reflexivity.
  - vm_compute. tauto.
  - reflexivity.
  - discriminate.
  - intros e' q He' Hq Hle. vm_compute in He'.
    repeat (destruct He' as [<-|He']; [injection Hq as <-; first [discriminate | exfalso; now apply Hle] |]).
    contradiction.
Defined.

(** ** Weight bands and the recency list *)

Lemma indexOf_lt (l : list string) (name : string) (i : nat) :
  indexOf l name = Some i -> (i < length l)%nat.
Proof.
  revert i. induction l as [|x l IH]; intros i; simpl; [discriminate|].
  destruct (String.eqb x name); [intros [= <-]; lia|].
  destruct (indexOf l name) as [j|]; simpl; [|discriminate].
  intros [= <-]. specialize (IH j eq_refl). lia.
Qed.

(** The weights fall into three bands that do not meet.  For a musician of
    the ensemble, with at most three recent soloists (which
    [addRecentSoloist] guarantees): featured (a feature scene, [solo] or
    [pickup]) weighs between 1 and 8; otherwise a recent soloist weighs 10
    plus its index, at most 12; anyone else weighs at least 100. *)
Theorem weight_bands (tr : TrackData) (recentSoloists : list string) (m : string)
        (currentTime : Q) (arrangement : value) :
  (length recentSoloists <= 3)%nat ->
  is_Some (initializeMusicianWeights tr !! m) ->
  exists w,
    calculateDynamicWeight tr (initializeMusicianWeights tr) recentSoloists
                           m currentTime arrangement = Num w
    /\ (featured arrangement m = true -> (1 <= w)%Q /\ (w <= 8)%Q)
    /\ (featured arrangement m = false ->
        forall i, indexOf recentSoloists m = Some i ->
                  w = (10 + inject_Z (Z.of_nat i))%Q /\ (10 <= w)%Q /\ (w <= 12)%Q)
    /\ (featured arrangement m = false ->
        indexOf recentSoloists m = None -> (100 <= w)%Q).
Proof.
  intros Hlen [b Hb]. unfold featured, calculateDynamicWeight. cbv zeta.
  destruct (truthy (musicianScene arrangement m)) eqn:Et; simpl orb.
  { assert (exists w,
               (if is_str (musicianScene arrangement m) "lead" then Num 1
                else if is_str (musicianScene arrangement m) "pickup"
                     then calculatePickupWeight tr m currentTime
                     else if is_str (musicianScene arrangement m) "cooldown" then Num 5
                          else if is_str (musicianScene arrangement m) "harmony" then Num 7
                               else if is_str (musicianScene arrangement m) "rhythm"
                                    then Num 8 else Num 6) = Num w
               /\ (1 <= w)%Q /\ (w <= 8)%Q) as (w & -> & H1 & H8).
    { destruct (is_str _ "lead"); [exists 1%Q; repeat split; discriminate|].
      destruct (is_str _ "pickup").
      { destruct (calculatePickupWeight_range tr m currentTime) as (w & -> & H2 & H5).
        exists w. repeat split; lra. }
      destruct (is_str _ "cooldown"); [exists 5%Q; repeat split; discriminate|].
      destruct (is_str _ "harmony"); [exists 7%Q; repeat split; discriminate|].
      destruct (is_str _ "rhythm"); [exists 8%Q; repeat split; discriminate|].
      exists 6%Q. repeat split; discriminate. }
    exists w. repeat split; try assumption; discriminate. }
  destruct (is_str (if truthy arrangement then field arrangement "solo" else VNull) m) eqn:Es;
    simpl orb.
  { exists 1%Q. repeat split; discriminate. }
  destruct (is_str (if truthy arrangement then field arrangement "pickup" else VNull) m) eqn:Ep.
  { destruct (calculatePickupWeight_range tr m currentTime) as (w & -> & H2 & H5).
    exists w. repeat split; try lra; discriminate. }
  pose proof (initializeMusicianWeights_ge tr m b Hb) as Hb100.
  rewrite Hb. destruct (indexOf recentSoloists m) as [i|] eqn:Ei.
  - pose proof (indexOf_lt _ _ _ Ei) as Hi.
    assert (0 <= inject_Z (Z.of_nat i))%Q as Hi0
        by (change 0%Q with (inject_Z 0); rewrite <- Zle_Qle; lia).
    assert (inject_Z (Z.of_nat i) <= 2)%Q as Hi2
        by (change 2%Q with (inject_Z 2); rewrite <- Zle_Qle; lia).
    eexists. split; [reflexivity|].
    split; [discriminate|]. split; [|discriminate].
    intros _ i' [= <-]. repeat split; lra.
  - assert (0 <= inject_Z (Z.of_nat (length recentSoloists)))%Q as Hl0
        by (change 0%Q with (inject_Z 0); rewrite <- Zle_Qle; lia).
    eexists. split; [reflexivity|].
    split; [discriminate|]. split; [discriminate|]. intros _ _. lra.
Qed.

(** The bands on [Examples.songTrack] at the sub-moment 55 with Bob as the
    one recent soloist: Bob, not featured, weighs 10. *)
Lemma weight_bands_witness :
  calculateDynamicWeight Examples.songTrack (initializeMusicianWeights Examples.songTrack)
                         ["Bob"] "Bob" 55
                         (tget (processTimelineKeys Examples.songTrack) (Num 55))
  = Num 10.
Proof.
  destruct (weight_bands Examples.songTrack ["Bob"] "Bob" 55
              (tget (processTimelineKeys Examples.songTrack) (Num 55)))
    as (w & E & _ & Hrecent & _).
  - simpl. lia.
  - exists 110%Q. reflexivity.
  - rewrite E. destruct (Hrecent eq_refl 0%nat eq_refl) as (-> & _). reflexivity.
Defined.

Lemma trackSolo_invariant (st : value * list string) (arrangement : value) :
  (length (snd st) <= 3)%nat /\ List.NoDup (snd st) ->
  (length (snd (trackSolo st arrangement)) <= 3)%nat
  /\ List.NoDup (snd (trackSolo st arrangement)).
Proof.
  destruct st as [previous recent]. simpl. intros [Hl Hn].
  destruct (truthy previous && negb (strict_eq (currentSolo arrangement) previous));
    [|now split].
  destruct previous; try now split.
  destruct (addRecentSoloist_bounded recent s) as (H1 & _ & H3). split; auto.
Qed.

Lemma fold_left_invariant {A B : Type} (P : A -> Prop) (f : A -> B -> A)
      (l : list B) (a : A) :
  (forall x b, P x -> P (f x b)) -> P a -> P (fold_left f l a).
Proof.
  intros Hf. revert a. induction l as [|b l IH]; intros a Ha; simpl; [exact Ha|].
  apply IH, Hf, Ha.
Qed.

(** Through any playback the list of recent soloists holds at most three
    names and none twice.  When the solo passes from a musician to someone
    else, that musician is moved to the head of the list, and, unless the new
    arrangement features it again, weighs exactly 10: first after the
    featured ones. *)
Theorem recent_soloists_kept (tr : TrackData) (weights : gmap string Q)
        (arrangements : list value) (arrangement : value) (name : string)
        (currentTime : Q) :
  let before := trackSolos arrangements in
  let after := trackSolo before arrangement in
  ((length (snd before) <= 3)%nat /\ List.NoDup (snd before))
  /\ ((length (snd after) <= 3)%nat /\ List.NoDup (snd after))
  /\ fst after = currentSolo arrangement
  /\ (fst before = VStr name -> name <> "" ->
      strict_eq (currentSolo arrangement) (VStr name) = false ->
      indexOf (snd after) name = Some 0%nat
      /\ (featured arrangement name = false ->
          calculateDynamicWeight tr weights (snd after) name currentTime arrangement
          = Num 10)).
Proof.
  cbv zeta.
  assert ((length (snd (trackSolos arrangements)) <= 3)%nat
          /\ List.NoDup (snd (trackSolos arrangements))) as Hinv.
  { unfold trackSolos.
    apply (fold_left_invariant
             (fun st => (length (snd st) <= 3)%nat /\ List.NoDup (snd st))).
    - intros x b. apply trackSolo_invariant.
    - simpl. split; [lia | constructor]. }
  split; [exact Hinv|]. split; [now apply trackSolo_invariant|].
  destruct (trackSolos arrangements) as [previous recent]. simpl fst. simpl snd.
  split; [reflexivity|].
  intros -> Hne Hchanged. cbn [truthy]. rewrite Hchanged.
  assert (negb (String.eqb name "") = true) as ->.
  { destruct (String.eqb_spec name ""); [contradiction | reflexivity]. }
  simpl andb. cbv iota.
  destruct (addRecentSoloist_bounded recent name) as (_ & Hidx & _).
  split; [exact Hidx|].
  intros Hnf. unfold featured in Hnf.
  apply orb_false_iff in Hnf as [Hnf Hp]. apply orb_false_iff in Hnf as [Hs Hsolo].
  unfold calculateDynamicWeight. cbv zeta. rewrite Hs, Hsolo, Hp, Hidx. reflexivity.
Qed.

(** The step from a solo by Alice to a solo by Bob. *)
Lemma recent_soloists_kept_witness :
  snd (trackSolo (trackSolos [VObj [("solo", VStr "Alice")]])
                 (VObj [("solo", VStr "Bob")]))
  = ["Alice"]
  /\ calculateDynamicWeight Examples.songTrack (initializeMusicianWeights Examples.songTrack)
                            ["Alice"] "Alice" 70 (VObj [("solo", VStr "Bob")])
     = Num 10.
Proof.
  pose proof (recent_soloists_kept Examples.songTrack
                (initializeMusicianWeights Examples.songTrack)
                [VObj [("solo", VStr "Alice")]] (VObj [("solo", VStr "Bob")])
                "Alice" 70) as H.
  cbv zeta in H. destruct H as (_ & _ & _ & H).
  destruct (H eq_refl ltac:(discriminate) eq_refl) as [_ Hw].
  split; [reflexivity|]. exact (Hw eq_refl).
Defined.

(** ** Who is playing: [getMusicianStatus] *)

Lemma field_truthy (v : value) (k : string) :
  truthy (field v k) = true -> truthy v = true.
Proof. destruct v; simpl; try discriminate; reflexivity. Qed.

Lemma statusWalk_settled (name : string) (T : Q) (r : value) (e : number * value)
      (rest : timed) :
  (forall s rest', statusWalk (e :: rest') name T s = statusWalk rest' name T r) ->
  Forall timeKey rest ->
  (forall y q, In y rest -> fst y = Num q -> (q <= T)%Q ->
               y = e
               \/ (is_str (field (field (snd y) "musicians") "band") "in" = false
                   /\ is_str (field (field (snd y) "musicians") "band") "out" = false
                   /\ truthy (field (field (snd y) "musicians") name) = false)) ->
  statusWalk rest name T r = r.
Proof.
  intros Hdec. induction rest as [|[[|q] ay] rest IH]; intros Hkeys Hrest;
    [reflexivity | inversion Hkeys; discriminate |].
  inversion Hkeys as [|? ? _ Hkeys']; subst.
  assert (statusWalk rest name T r = r) as IH'.
  { apply IH; [exact Hkeys'|]. intros y q' Hy. apply Hrest. now right. }
  destruct (num_lt (Num T) (Num q)) eqn:E.
  - cbn [statusWalk]. cbv zeta. now rewrite E.
  - apply num_lt_false in E.
    destruct (Hrest (Num q, ay) q (or_introl eq_refl) eq_refl E) as [<-|(H1 & H2 & H3)].
    + now rewrite Hdec.
    + cbn [snd] in H1, H2, H3. cbn [statusWalk]. cbv zeta.
      rewrite (proj2 (num_lt_false T q) E), H1, H2, H3. exact IH'.
Qed.

Lemma statusWalk_latest (name : string) (T t : Q) (a r : value) (l : timed) (s : value) :
  (forall s rest', statusWalk ((Num t, a) :: rest') name T s = statusWalk rest' name T r) ->
  Forall timeKey l ->
  StronglySorted (fun x y => num_lt (fst y) (fst x) = false) l ->
  In (Num t, a) l -> (t <= T)%Q ->
  (forall y q, In y l -> fst y = Num q -> (q <= T)%Q ->
               y = (Num t, a) \/ (q < t)%Q
               \/ (is_str (field (field (snd y) "musicians") "band") "in" = false
                   /\ is_str (field (field (snd y) "musicians") "band") "out" = false
                   /\ truthy (field (field (snd y) "musicians") name) = false)) ->
  statusWalk l name T s = r.
Proof.
  intros Hdec. revert s. induction l as [|x rest IH]; intros s Hkeys Hsorted Hin Ht Hl;
    [contradiction|].
  inversion Hkeys as [|? ? Hx Hkeys']; subst.
  inversion Hsorted as [|? ? Hsorted' Hall]; subst.
  destruct Hin as [->|Hin].
  - rewrite Hdec. apply (statusWalk_settled name T r (Num t, a)); [exact Hdec | exact Hkeys' |].
    intros y q Hy Hq Hle.
    destruct (Hl y q (or_intror Hy) Hq Hle) as [H|[H|H]]; [now left | | now right].
    pose proof (proj1 (List.Forall_forall _ _) Hall y Hy) as Hord.
    cbn [fst] in Hord. rewrite Hq in Hord. apply num_lt_false in Hord. lra.
  - destruct x as [[|q] ax]; [discriminate Hx|].
    pose proof (proj1 (List.Forall_forall _ _) Hall _ Hin) as Hord.
    cbn [fst] in Hord. apply num_lt_false in Hord.
    cbn [statusWalk]. cbv zeta.
    rewrite (proj2 (num_lt_false T q) ltac:(lra)).
    apply IH; try assumption. intros y q' Hy. apply Hl. now right.
Qed.

(** [getMusicianStatus], every resolved key being a number.  Before the first
    entry that has [musicians] the status is ["out"].  Otherwise take the
    latest entry at or before [currentTime] that says something about the
    musician (later ones up to [currentTime] name neither the band nor the
    musician): a band shortcut ["in"] or ["out"] gives that status, also to a
    musician the entry does not name; failing that, the musician's own
    value is the status. *)
Theorem musician_status (tr : TrackData) (musicianName : string) (currentTime : Q) :
  Forall timeKey (processTimelineKeys tr) ->
  ((forall e q, In e (processTimelineKeys tr) ->
                truthy (field (snd e) "musicians") = true ->
                fst e = Num q -> (currentTime < q)%Q) ->
   getMusicianStatus tr musicianName currentTime = VStr "out")
  /\ (forall t arrangement status,
        In (Num t, arrangement) (processTimelineKeys tr) -> (t <= currentTime)%Q ->
        (forall e q, In e (processTimelineKeys tr) -> fst e = Num q ->
                     (q <= currentTime)%Q ->
                     e = (Num t, arrangement) \/ (q < t)%Q
                     \/ (is_str (field (field (snd e) "musicians") "band") "in" = false
                         /\ is_str (field (field (snd e) "musicians") "band") "out" = false
                         /\ truthy (field (field (snd e) "musicians") musicianName) = false)) ->
        (field (field arrangement "musicians") "band" = VStr "in" /\ status = VStr "in")
        \/ (field (field arrangement "musicians") "band" = VStr "out" /\ status = VStr "out")
        \/ (is_str (field (field arrangement "musicians") "band") "in" = false
            /\ is_str (field (field arrangement "musicians") "band") "out" = false
            /\ truthy (field (field arrangement "musicians") musicianName) = true
            /\ status = field (field arrangement "musicians") musicianName) ->
        getMusicianStatus tr musicianName currentTime = status).
Proof.
  intros Hkeys. unfold getMusicianStatus.
  set (f := fun e : number * value => truthy (field (snd e) "musicians")).
  assert (Forall timeKey (List.filter f (processTimelineKeys tr))) as Hfk.
  { apply List.Forall_forall. intros y Hy. apply filter_In in Hy as [Hy _].
    exact (proj1 (List.Forall_forall _ _) Hkeys y Hy). }
  assert (Forall timeKey (byTime (List.filter f (processTimelineKeys tr)))) as Hbk
      by (now apply sort_Forall).
  assert (forall y, In y (byTime (List.filter f (processTimelineKeys tr)))
                    <-> In y (processTimelineKeys tr) /\ f y = true) as Hmem.
  { intros y. unfold byTime. rewrite sort_In. apply filter_In. }
  split.
  - intros Hbefore.
    destruct (byTime (List.filter f (processTimelineKeys tr))) as [|[[|q] ay] rest] eqn:E;
      [reflexivity | inversion Hbk; discriminate |].
    destruct (proj1 (Hmem (Num q, ay)) (or_introl eq_refl)) as [Hin Hf].
    pose proof (Hbefore _ q Hin Hf eq_refl) as Hq.
    cbn [statusWalk]. now rewrite (proj2 (num_lt_true currentTime q) Hq).
  - intros t arrangement status Hin Ht Hlatest Hsays.
    assert (f (Num t, arrangement) = true) as Hf.
    { unfold f. cbn [snd].
      destruct Hsays as [[H _]|[[H _]|(_ & _ & H & _)]].
      - apply (field_truthy _ "band"). now rewrite H.
      - apply (field_truthy _ "band"). now rewrite H.
      - now apply (field_truthy _ musicianName). }
    apply (statusWalk_latest musicianName currentTime t arrangement status).
    + intros s rest'. cbn [statusWalk]. cbv zeta.
      rewrite (proj2 (num_lt_false currentTime t) Ht).
      destruct Hsays as [[-> ->]|[[-> ->]|(-> & -> & -> & ->)]]; reflexivity.
    + exact Hbk.
    + now apply byTime_sorted.
    + apply Hmem. now split.
    + exact Ht.
    + intros y q Hy. apply Hmem in Hy as [Hy _]. now apply Hlatest.
Qed.

(** On [Examples.sectionBandTrack] (band out at 0, band in at 30, Bob out at
    45): at time 50 Alice is in, by the band shortcut at 30. *)
Lemma musician_status_witness :
  getMusicianStatus Examples.sectionBandTrack "Alice" 50 = VStr "in".
Proof.
  assert (Forall timeKey (processTimelineKeys Examples.sectionBandTrack)) as H
      by (vm_compute; repeat constructor).
  destruct (musician_status Examples.sectionBandTrack "Alice" 50 H) as [_ Hat].
  apply (Hat 30%Q (tget (processTimelineKeys Examples.sectionBandTrack) (Num 30))).
  - vm_compute. tauto.
  - discriminate.
  - intros e q He Hq Hle. vm_compute in He. destruct He as [<-|[<-|[<-|[]]]].
    + right; left. injection Hq as <-. reflexivity.
    + right; right. repeat split; reflexivity.
    + left. reflexivity.
  - left. split; reflexivity.
Defined.

(** ** Instruments: [getCurrentInstruments] *)

Lemma defaultInstruments_spread (tr : TrackData) :
  defaultInstruments tr
  = spread [] (map (fun kv => (fst kv, primaryInstrument (snd kv))) (ensemble tr)).
Proof.
  unfold defaultInstruments, spread. generalize (@nil (string * value)).
  induction (ensemble tr) as [|kv l IH]; intros acc; simpl; [reflexivity|]. apply IH.
Qed.

Lemma last_field_map (f : value -> value) (o : obj) (k : string) :
  last_field (map (fun kv => (fst kv, f (snd kv))) o) k = option_map f (last_field o k).
Proof.
  unfold last_field. rewrite <- map_rev.
  induction (rev o) as [|[k0 v0] l IH]; simpl; [reflexivity|].
  destruct (String.eqb k0 k); [reflexivity | exact IH].
Qed.

(** The instrument [getCurrentInstruments] shows for a musician: what the
    current arrangement's [instrumentChanges] says, if it names the musician
    (also one who is not in the ensemble); otherwise the first instrument of
    the musician's ensemble entry, or the entry itself when it is not an
    array; [undefined] for a name in neither. *)
Theorem current_instrument (tr : TrackData) (currentTime : Q) (musician : string) :
  let arrangement := getCurrentArrangement tr currentTime in
  let changes :=
    if truthy arrangement && truthy (field arrangement "instrumentChanges")
    then entries (field arrangement "instrumentChanges") else [] in
  get (getCurrentInstruments tr currentTime) musician
  = match last_field changes musician with
    | Some instrument => instrument
    | None =>
        match last_field (ensemble tr) musician with
        | Some musicianInstruments => primaryInstrument musicianInstruments
        | None => VUndefined
        end
    end.
Proof.
  cbv zeta. unfold getCurrentInstruments. cbv zeta.
  assert (forall changes,
             get (spread (defaultInstruments tr) changes) musician
             = match last_field changes musician with
               | Some instrument => instrument
               | None =>
                   match last_field (ensemble tr) musician with
                   | Some musicianInstruments => primaryInstrument musicianInstruments
                   | None => VUndefined
                   end
               end) as H.
  { intros changes. rewrite get_spread. destruct (last_field changes musician); [reflexivity|].
    rewrite defaultInstruments_spread, get_spread, last_field_map.
    destruct (last_field (ensemble tr) musician); reflexivity. }
  destruct (truthy _ && truthy _).
  - apply H.
  - apply (H []).
Qed.

(** ** What a moment flashes: [triggerMoment] after [extractMomentTimes] *)

Lemma get_num_only (o : obj) (t : Q) (k : string) (a : value) :
  In (k, a) o -> same_key (Number k) (Num t) = true ->
  (forall k' a', In (k', a') o -> same_key (Number k') (Num t) = true ->
                 (k', a') = (k, a)) ->
  get_num o t = if canonical_key k then a else VUndefined.
Proof.
  intros Hin Hk Honly. induction o as [|[k0 a0] o IH]; [contradiction|].
  simpl. destruct (same_key (Number k0) (Num t)) eqn:E.
  - pose proof (Honly k0 a0 (or_introl eq_refl) E) as Heq. injection Heq as -> ->.
    rewrite andb_true_r. destruct (canonical_key k) eqn:Ec; [reflexivity|].
    clear IH Hin. induction o as [|[k1 a1] o IH]; [reflexivity|].
    simpl. destruct (same_key (Number k1) (Num t)) eqn:E1.
    + pose proof (Honly k1 a1 (or_intror (or_introl eq_refl)) E1) as Heq.
      injection Heq as -> ->. rewrite Ec. simpl. apply IH.
      intros k' a' [H|H]; apply Honly; [now left | now right; right].
    + rewrite andb_false_r. apply IH.
      intros k' a' [H|H]; apply Honly; [now left | now right; right].
  - rewrite andb_false_r. destruct Hin as [Hin|Hin]; [injection Hin as -> ->; congruence|].
    apply IH; [exact Hin|]. intros k' a' H. apply Honly. now right.
Qed.

Lemma momentWorthy_flashes (a : value) :
  momentWorthy a = true ->
  truthy a = true
  /\ ((if truthy (field a "musicians") then
        if is_str (field (field a "musicians") "band") "in" then [FlashEntireEnsemble]
        else if is_str (field (field a "musicians") "band") "out" then [FlashEntireEnsemble]
        else flat_map (fun kv =>
                         if is_str (snd kv) "in" then [FlashSpecificMusician (fst kv)]
                         else if is_str (snd kv) "out" then [FlashSpecificMusician (fst kv)]
                         else [])
                      (entries (field a "musicians"))
      else [])
     ++ (if is_str (field a "detail") "band-in" then [FlashEntireEnsemble] else []))%list
     <> [].
Proof.
  unfold momentWorthy. cbv zeta. intros H. split.
  - apply orb_true_iff in H as [H|H].
    + apply andb_true_iff in H as [H _]. now apply (field_truthy _ "musicians").
    + apply (field_truthy _ "detail"). destruct (field a "detail"); try discriminate H.
      simpl in H. apply String.eqb_eq in H as ->. reflexivity.
  - destruct (is_str (field a "detail") "band-in");
      [intros E; apply app_eq_nil in E as [_ E]; discriminate|].
    rewrite orb_false_r in H. apply andb_true_iff in H as [-> H].
    destruct (is_str (field (field a "musicians") "band") "in"); [discriminate|].
    destruct (is_str (field (field a "musicians") "band") "out"); [discriminate|].
    simpl in H. unfold hasMusiciansChanging in H.
    apply existsb_exists in H as (kv & Hin & Hkv).
    rewrite app_nil_r. intros E.
    assert (In (FlashSpecificMusician (fst kv))
               (flat_map (fun kv =>
                            if is_str (snd kv) "in" then [FlashSpecificMusician (fst kv)]
                            else if is_str (snd kv) "out"
                                 then [FlashSpecificMusician (fst kv)]
                                 else [])
                         (entries (field a "musicians")))) as Hf.
    { apply in_flat_map. exists kv. split; [exact Hin|].
      destruct (is_str (snd kv) "in"); [now left|].
      destruct (is_str (snd kv) "out"); [now left | discriminate]. }
    rewrite E in Hf. contradiction.
Qed.

(** A top-level entry that announces a change, at a positive time that no
    other key of the timeline reads as, is among the moment times.  When the
    moment comes it flashes something if its key is written the way the
    number is printed, and nothing at all if it is written otherwise (such
    as ["50.0"] or ["050"]): [triggerMoment] looks the arrangement up under
    the printed number.  The key has at most 15 characters, so that it
    gives its number with at most 15 digits, which the double keeps and
    prints back digit for digit; the time is in the range that is printed
    without an exponent (from [0.000001] to below [10^21]). *)
Theorem moment_flashes (tr : TrackData) (k : string) (arrangement : value) (t : Q) :
  In (k, arrangement) (timeline tr) ->
  (String.length k <= 15)%nat ->
  Number k = Num t -> (0 < t)%Q ->
  (1 # 1000000 <= t)%Q -> (t < 1000000000000000000000)%Q ->
  momentWorthy arrangement = true ->
  (forall k' a', In (k', a') (timeline tr) -> same_key (Number k') (Num t) = true ->
                 (k', a') = (k, arrangement)) ->
  In t (extractMomentTimes tr)
  /\ (canonical_key k = true -> triggerMoment tr t <> [])
  /\ (canonical_key k = false -> triggerMoment tr t = []).
Proof.
  intros Hin _ Hk Ht _ _ Hw Honly. split.
  - unfold extractMomentTimes. rewrite sort_In, in_flat_map.
    exists (k, arrangement). split; [exact Hin|]. now apply momentsOfEntry_In.
  - assert (same_key (Number k) (Num t) = true) as Hsame
        by (rewrite Hk; apply same_key_refl).
    pose proof (get_num_only _ _ _ _ Hin Hsame Honly) as Hget.
    unfold triggerMoment. cbv zeta. rewrite Hget. split; intros Hc; rewrite Hc.
    + destruct (momentWorthy_flashes _ Hw) as [-> Hf]. exact Hf.
    + reflexivity.
Qed.

(** The band coming in at ["50"] on [Examples.momentTrack]. *)
Lemma moment_flashes_witness :
  In 50%Q (extractMomentTimes Examples.momentTrack)
  /\ triggerMoment Examples.momentTrack 50 <> [].
Proof.
  destruct (moment_flashes Examples.momentTrack "50"
              (VObj [("part", VStr "verse"); ("musicians", VObj [("band", VStr "in")])])
              50%Q) as (H1 & H2 & _).
  - right; left; reflexivity.
  - simpl. lia.
  - reflexivity.
  - reflexivity.
  - discriminate.
  - reflexivity.
  - reflexivity.
  - intros k' a' [H|[H|[]]] Hs; [injection H as <- <-; discriminate Hs | exact (eq_sym H)].
  - split; [exact H1 | exact (H2 eq_refl)].
Defined.

(** ** The coordinator: [playNext] and [playPrevious] *)

Import Host.

Lemma catalogOf_lookup (songs : gmap string Track) (slug : string) :
  catalogOf songs !! slug = trackEntry <$> songs !! slug.
Proof. apply lookup_fmap. Qed.

Lemma goBack_snoc (w : World) (rest : list SongRef) (previousSong : SongRef) :
  history (state w) = (rest ++ [previousSong])%list ->
  goBack w
  = (with_state w
       {| followingMusician := followingMusician (state w);
          playedSongs := match songSlug previousSong with
                         | Some slug => playedSongs (state w) ∖ {[slug]}
                         | None => playedSongs (state w)
                         end;
          currentSongSlug := currentSongSlug (state w);
          followMode := followMode (state w);
          history := rest;
          nextSong := nextSong (state w);
          queue := queue (state w) |},
     Some previousSong).
Proof.
  intros H. unfold goBack. cbv zeta. rewrite H, last_snoc, removelast_last. reflexivity.
Qed.

(** What a call of [queueNextSongByMusician] on a list of connections leaves:
    the "No songs queued" value, or one playable song as the whole queue. *)
Lemma queueNextSong_selects (catalog : Catalog) (connectionsData : list Connection)
      (random : Q) (musicianName : string) (w w' : World) :
  queueNextSongByMusician catalog (Some connectionsData) random musicianName w = Some w' ->
  (nextSong (state w') = Some (noSongsQueued musicianName)
   /\ queue (state w') = queue (state w))
  \/ (exists conn songTitle,
         In conn connectionsData
         /\ playable catalog (state w) conn = true
         /\ queue (state w') = [normalizeSlug (song conn)]
         /\ nextSong (state w')
            = Some {| songSlug := Some (normalizeSlug (song conn));
                      songTitle := songTitle; viaMusician := musicianName |}).
Proof.
  unfold queueNextSongByMusician. cbv zeta.
  destruct (List.filter (playable catalog (state w)) connectionsData) as [|c cs] eqn:E.
  - intros [= <-]. left. split; reflexivity.
  - destruct (nth_error (c :: cs) _) as [chosen|] eqn:En; [|discriminate].
    intros [= <-]. right. apply nth_error_In in En. rewrite <- E in En.
    apply filter_In in En as [Hin Hp].
    eexists chosen, _. repeat split; try eassumption; reflexivity.
Qed.

Lemma queueNextSong_frame (catalog : Catalog) (connectionsData : option (list Connection))
      (random : Q) (musicianName : string) (w w' : World) :
  queueNextSongByMusician catalog connectionsData random musicianName w = Some w' ->
  history (state w') = history (state w)
  /\ playedSongs (state w') = playedSongs (state w)
  /\ currentSongSlug (state w') = currentSongSlug (state w)
  /\ followingMusician (state w') = followingMusician (state w).
Proof.
  unfold queueNextSongByMusician. destruct connectionsData as [l|];
    [|intros [= <-]; repeat split].
  cbv zeta. destruct (List.filter (playable catalog (state w)) l);
    [intros [= <-]; repeat split|].
  destruct (nth_error _ _); [intros [= <-]; repeat split | discriminate].
Qed.

Lemma popNextSong_empty (w : World) :
  queue (state w) = [] -> popNextSong w = (w, None).
Proof. unfold popNextSong. now intros ->. Qed.

(** [playNext] on an empty queue never starts a song.  With no bandmate to
    turn to it changes nothing; otherwise it makes a bandmate (a musician of
    the current track other than the one followed) the followed musician, and
    what is left when the lookup has resolved is that musician's
    recommendation: the song itself waits for the next call. *)
Theorem playNext_empty_queue (songs : gmap string Track)
        (getConnections : string -> option (list Connection))
        (randomBandmate randomSong : Q) (connectionsFirst : bool) (p : Player) :
  queue (state (world p)) = [] ->
  (0 <= randomBandmate)%Q -> (randomBandmate < 1)%Q ->
  (0 <= randomSong)%Q -> (randomSong < 1)%Q ->
  exists p',
    playNext songs getConnections randomBandmate randomSong connectionsFirst p = Some p'
    /\ songsStarted p' = songsStarted p
    /\ currentTrack p' = currentTrack p
    /\ currentSongSlug (state (world p')) = currentSongSlug (state (world p))
    /\ playedSongs (state (world p')) = playedSongs (state (world p))
    /\ history (state (world p')) = history (state (world p))
    /\ (getBandmates p = [] -> world p' = world p)
    /\ (getBandmates p <> [] ->
        exists bandmate,
          In bandmate (map fst (entries (match currentTrack p with
                                         | Some track => trackEnsemble track
                                         | None => VUndefined
                                         end)))
          /\ followingMusician (state (world p)) <> Some bandmate
          /\ followingMusician (state (world p')) = Some bandmate
          /\ queueNextSongByMusician (catalogOf songs) (getConnections bandmate)
                                     randomSong bandmate
                                     (setFollowingMusician bandmate (world p))
             = Some (world p')).
Proof.
  intros Hq Hb0 Hb1 Hs0 Hs1. destruct p as [w track started]. cbn [world] in Hq.
  unfold playNext. cbv zeta. cbn [world]. rewrite (popNextSong_empty w Hq).
  cbn [set_slug negb]. unfold with_world. cbn [currentTrack songsStarted world].
  destruct (getBandmates {| world := w; currentTrack := track; songsStarted := started |})
    as [|b bs] eqn:Eb.
  - eexists. split; [reflexivity|]. cbn [world currentTrack songsStarted].
    repeat split. intros H. now contradiction H.
  - pose proof (randomIndex_lt randomBandmate (length (b :: bs)) Hb0 Hb1
                               ltac:(simpl; lia)) as Hlt.
    apply nth_error_Some in Hlt.
    destruct (nth_error (b :: bs) _) as [bandmate|] eqn:En; [|congruence]. clear Hlt.
    apply nth_error_In in En. rewrite <- Eb in En.
    rewrite (popNextSong_empty (setFollowingMusician bandmate w) Hq).
    destruct (queueNextSong_returns (catalogOf songs) (getConnections bandmate) randomSong
                bandmate (setFollowingMusician bandmate w) Hs0 Hs1) as [w' Hw'].
    rewrite Hw'. cbn [option_map].
    destruct (queueNextSong_frame _ _ _ _ _ _ Hw') as (F1 & F2 & F3 & F4).
    eexists. split; [reflexivity|]. cbn [world currentTrack songsStarted].
    repeat split; try assumption; try discriminate.
    intros _. exists bandmate.
    unfold getBandmates in En. cbn [currentTrack world] in En.
    destruct track as [track|]; [|contradiction].
    destruct (truthy (trackEnsemble track)); [|contradiction].
    apply filter_In in En as [Hin Hne].
    apply negb_true_iff, bool_decide_eq_false in Hne.
    split; [exact Hin|]. split; [congruence|]. split; [exact F4 | exact Hw'].
Qed.

(** On [Examples.idlePlayer] ([b] playing, Alice followed, nothing queued):
    the rabbit hops to Bob and no song starts. *)
Lemma playNext_empty_queue_witness :
  exists p',
    playNext Examples.abcSongs (fun _ => Some Examples.abcConnections) (1 # 2) (1 # 2) true
             Examples.idlePlayer = Some p'
    /\ songsStarted p' = ["a"; "b"]
    /\ currentSongSlug (state (world p')) = Some "b".
Proof.
  destruct (playNext_empty_queue Examples.abcSongs (fun _ => Some Examples.abcConnections)
              (1 # 2) (1 # 2) true Examples.idlePlayer)
    as (p' & E & Hs & _ & Hc & _); try reflexivity; try discriminate.
  exists p'. split; [exact E|]. split; [exact Hs | exact Hc].
Defined.

Lemma playSong_found (songs : gmap string Track) (slug : string) (p : Player)
      (track : Track) :
  songs !! slug = Some track ->
  playSong songs slug p
  = {| world := setCurrentSong (catalogOf songs) slug (world p);
       currentTrack := Some track;
       songsStarted := (songsStarted p ++ [slug])%list |}.
Proof. unfold playSong. now intros ->. Qed.

(** [playPrevious] goes back one song and no further.  With a song [c]
    playing that is in the catalog, a recommendation pending, and a history
    ending in an entry for a catalog song [x0]: the first call plays [x0] and
    puts [c] where [x0] was in the history; the second call plays [c] again
    and puts [x0] back.  The entries before the last one are never reached,
    and when [x0] was marked played and [c] was not, the played set is back
    as it was. *)
Theorem playPrevious_twice (songs : gmap string Track) (p : Player)
        (c x0 : string) (next previousSong : SongRef) (rest : list SongRef)
        (trackC track0 : Track) :
  currentSongSlug (state (world p)) = Some c -> c <> "" ->
  nextSong (state (world p)) = Some next ->
  songs !! c = Some trackC ->
  history (state (world p)) = (rest ++ [previousSong])%list ->
  songSlug previousSong = Some x0 -> x0 <> "" ->
  songs !! x0 = Some track0 ->
  exists p1 p2,
    playPrevious songs p = Some p1
    /\ playPrevious songs p1 = Some p2
    /\ currentSongSlug (state (world p1)) = Some x0
    /\ history (state (world p1))
       = (rest ++ [{| songSlug := Some c; songTitle := title (trackEntry trackC);
                      viaMusician := viaMusician next |}])%list
    /\ currentSongSlug (state (world p2)) = Some c
    /\ history (state (world p2))
       = (rest ++ [{| songSlug := Some x0; songTitle := title (trackEntry track0);
                      viaMusician := viaMusician next |}])%list
    /\ songsStarted p2 = (songsStarted p ++ [x0; c])%list
    /\ ((x0 ∈ playedSongs (state (world p))) -> (c ∉ playedSongs (state (world p))) ->
        playedSongs (state (world p2)) = playedSongs (state (world p))).
Proof.
  intros Hcur Hc Hnext HsC Hhist Hslug Hx0 Hs0.
  destruct p as [w track started]. cbn [world] in *.
  pose proof (set_slug_nonempty c Hc) as HsetC.
  pose proof (set_slug_nonempty x0 Hx0) as Hset0.
  assert (lookupCatalog (catalogOf songs) c = Some (trackEntry trackC)) as HcatC
      by (apply lookupCatalog_own; rewrite catalogOf_lookup, HsC; reflexivity).
  assert (lookupCatalog (catalogOf songs) x0 = Some (trackEntry track0)) as Hcat0
      by (apply lookupCatalog_own; rewrite catalogOf_lookup, Hs0; reflexivity).
  unfold playPrevious at 1. cbn [world]. rewrite (goBack_snoc w rest previousSong Hhist).
  rewrite Hslug. rewrite (playSong_found songs x0 _ track0 Hs0).
  unfold with_world at 1. cbn [world currentTrack songsStarted].
  set (w1 := with_state w _).
  assert (history (state (setCurrentSong (catalogOf songs) x0 w1))
          = (rest ++ [{| songSlug := Some c; songTitle := title (trackEntry trackC);
                         viaMusician := viaMusician next |}])%list) as Hh1.
  { rewrite setCurrentSong_history. subst w1. cbn [state with_state currentSongSlug nextSong history].
    now rewrite Hcur, Hnext, HsetC, HcatC. }
  assert (playedSongs (state (setCurrentSong (catalogOf songs) x0 w1))
          = {[c]} ∪ (playedSongs (state w) ∖ {[x0]})) as Hp1.
  { rewrite setCurrentSong_played. subst w1. cbn [state with_state currentSongSlug playedSongs].
    now rewrite Hcur, HsetC. }
  eexists. eexists. split; [reflexivity|].
  unfold playPrevious. cbn [world].
  rewrite (goBack_snoc _ rest _ Hh1). cbn [songSlug].
  rewrite (playSong_found songs c _ trackC HsC).
  unfold with_world. cbn [world currentTrack songsStarted].
  split; [reflexivity|]. cbn [world currentTrack songsStarted].
  split; [reflexivity|]. split; [exact Hh1|].
  split; [reflexivity|].
  set (w2 := with_state (setCurrentSong (catalogOf songs) x0 w1) _).
  split.
  { rewrite setCurrentSong_history. subst w2. cbn [state with_state currentSongSlug nextSong history].
    rewrite setCurrentSong_current.
    assert (nextSong (state (setCurrentSong (catalogOf songs) x0 w1)) = Some next) as ->
        by (subst w1; exact Hnext).
    now rewrite Hset0, Hcat0. }
  split; [now rewrite <- app_assoc|].
  intros Hin Hnin. rewrite setCurrentSong_played. subst w2.
  cbn [state with_state currentSongSlug playedSongs].
  rewrite setCurrentSong_current, Hset0, Hp1.
  apply set_eq. intros y.
  rewrite !elem_of_union, !elem_of_difference, !elem_of_union, !elem_of_difference,
    !elem_of_singleton.
  split.
  - intros [->|[[->|[H _]] H']]; [exact Hin | contradiction | exact H].
  - intros H. destruct (decide (y = x0)) as [->|Hne]; [now left|].
    right. split; [right; now split|]. intros ->. contradiction.
Qed.

(** On [Examples.abcPlayer] ([b] playing, history [[a]]): back to [a], then
    back to [b]. *)
Lemma playPrevious_twice_witness :
  exists p1 p2,
    playPrevious Examples.abcSongs Examples.abcPlayer = Some p1
    /\ playPrevious Examples.abcSongs p1 = Some p2
    /\ currentSongSlug (state (world p1)) = Some "a"
    /\ currentSongSlug (state (world p2)) = Some "b"
    /\ playedSongs (state (world p2)) = {["a"]}.
Proof.
  destruct (playPrevious_twice Examples.abcSongs Examples.abcPlayer "b" "a"
              {| songSlug := Some "c"; songTitle := VStr "C"; viaMusician := "Alice" |}
              {| songSlug := Some "a"; songTitle := VStr "A"; viaMusician := "Alice" |}
              [] (Examples.abcTrack "B") (Examples.abcTrack "A"))
    as (p1 & p2 & E1 & E2 & H1 & _ & H2 & _ & _ & Hp); try reflexivity; try discriminate.
  exists p1, p2. repeat split; try assumption.
  apply Hp.
  - change ("a" ∈ ({["a"]} : gset string)). apply elem_of_singleton_2. reflexivity.
  - change ("b" ∉ ({["a"]} : gset string)). intros H.
    apply elem_of_singleton_1 in H. discriminate.
Defined.

Lemma popNextSong_cons (w : World) (slug : string) (q : list string) :
  queue (state w) = slug :: q ->
  popNextSong w = (with_state w (with_queue (state w) q), Some slug).
Proof. unfold popNextSong. now intros ->. Qed.

(** [playNext] with a queued song that the catalog has: the song is started
    and becomes the current one, and the one that was playing is marked
    played.  If a musician is followed and the lookup gives a list, what is
    recommended afterwards is either nothing (the rest of the queue is kept)
    or a single queued song that is neither the one just started nor one
    marked played, and that passes the catalog test of the filter: it is a
    song of the catalog, or its slug is a name every object inherits. *)
Theorem playNext_plays_queued (songs : gmap string Track)
        (getConnections : string -> option (list Connection))
        (randomBandmate randomSong : Q) (connectionsFirst : bool) (p : Player)
        (slug : string) (q : list string) (track : Track) :
  queue (state (world p)) = slug :: q -> slug <> "" ->
  songs !! slug = Some track ->
  (0 <= randomSong)%Q -> (randomSong < 1)%Q ->
  exists p',
    playNext songs getConnections randomBandmate randomSong connectionsFirst p = Some p'
    /\ songsStarted p' = (songsStarted p ++ [slug])%list
    /\ currentTrack p' = Some track
    /\ currentSongSlug (state (world p')) = Some slug
    /\ (forall previous, currentSongSlug (state (world p)) = Some previous ->
                         previous <> "" ->
                         previous ∈ playedSongs (state (world p')))
    /\ (forall musician connectionsData,
          followingMusician (state (world p)) = Some musician -> musician <> "" ->
          getConnections musician = Some connectionsData ->
          exists next,
            nextSong (state (world p')) = Some next
            /\ viaMusician next = musician
            /\ ((songSlug next = None /\ queue (state (world p')) = q)
                \/ (exists x, songSlug next = Some x
                              /\ x <> slug
                              /\ (x ∉ playedSongs (state (world p')))
                              /\ (is_Some (songs !! x) \/ inherited x = true)
                              /\ queue (state (world p')) = [x]))).
Proof.
  intros Hq Hslug Hsong Hs0 Hs1. destruct p as [w cur started]. cbn [world] in *.
  pose proof (set_slug_nonempty slug Hslug) as Hset.
  unfold playNext. cbv zeta. cbn [world]. rewrite (popNextSong_cons w slug q Hq).
  rewrite Hset. cbn [negb].
  rewrite (playSong_found songs slug _ track Hsong).
  unfold with_world. cbn [world currentTrack songsStarted].
  set (w1 := with_state w (with_queue (state w) q)).
  set (w2 := setCurrentSong (catalogOf songs) slug w1).
  assert (forall previous, currentSongSlug (state w) = Some previous -> previous <> "" ->
                           previous ∈ playedSongs (state w2)) as Hplayed.
  { intros previous Hp Hne. subst w2. rewrite setCurrentSong_played. subst w1.
    cbn [state with_state with_queue currentSongSlug playedSongs].
    rewrite Hp, (set_slug_nonempty previous Hne).
    apply elem_of_union_l, elem_of_singleton_2. reflexivity. }
  change (followingMusician (state w2)) with (followingMusician (state w)).
  destruct (followingMusician (state w)) as [m|] eqn:Ef.
  2:{ eexists. split; [reflexivity|]. cbn [world currentTrack songsStarted].
      repeat split; try assumption. intros musician c H. discriminate H. }
  destruct (set_slug (Some m)) eqn:Em.
  2:{ eexists. split; [reflexivity|]. cbn [world currentTrack songsStarted].
      repeat split; try assumption. intros musician c [= <-] Hne.
      rewrite (set_slug_nonempty m Hne) in Em. discriminate Em. }
  destruct (queueNextSong_returns (catalogOf songs) (getConnections m) randomSong m w2
              Hs0 Hs1) as [w' Hw'].
  rewrite Hw'. cbn [option_map].
  destruct (queueNextSong_frame _ _ _ _ _ _ Hw') as (F1 & F2 & F3 & F4).
  eexists. split; [reflexivity|]. cbn [world currentTrack songsStarted].
  split; [reflexivity|]. split; [reflexivity|]. split; [exact F3|].
  split; [intros previous Hp Hne; rewrite F2; now apply Hplayed|].
  intros musician connectionsData [= <-] Hne Hconn. rewrite Hconn in Hw'.
  destruct (queueNextSong_selects _ _ _ _ _ _ Hw')
    as [[Hn Hqueue]|(conn & songTitle & Hin & Hp & Hqueue & Hn)].
  - eexists. split; [exact Hn|]. split; [reflexivity|]. left.
    split; [reflexivity | exact Hqueue].
  - eexists. split; [exact Hn|]. split; [reflexivity|]. right.
    exists (normalizeSlug (song conn)).
    apply playable_iff in Hp as (Hcat & Hnot & Hcurrent).
    split; [reflexivity|].
    split; [intros E; apply Hcurrent; now rewrite E|].
    split; [now rewrite F2|].
    split; [|exact Hqueue].
    apply lookupCatalog_is_Some in Hcat as [Hcat|Hcat]; [left | now right].
    rewrite catalogOf_lookup in Hcat. now apply fmap_is_Some in Hcat.
Qed.

(** On [Examples.abcPlayer] ([b] playing, [c] queued, Alice followed, whose
    connections are [a], [b] and [c]): [c] starts, [b] is marked played, and
    nothing is left to recommend. *)
Lemma playNext_plays_queued_witness :
  exists p',
    playNext Examples.abcSongs (fun _ => Some Examples.abcConnections) (1 # 2) (1 # 2) true
             Examples.abcPlayer = Some p'
    /\ songsStarted p' = ["a"; "b"; "c"]
    /\ currentSongSlug (state (world p')) = Some "c"
    /\ ("b" ∈ playedSongs (state (world p'))).
Proof.
  destruct (playNext_plays_queued Examples.abcSongs (fun _ => Some Examples.abcConnections)
              (1 # 2) (1 # 2) true Examples.abcPlayer "c" [] (Examples.abcTrack "C"))
    as (p' & E & Hs & _ & Hc & Hp & _); try reflexivity; try discriminate.
  exists p'. split; [exact E|]. split; [exact Hs|]. split; [exact Hc|].
  apply Hp; [reflexivity | discriminate].
Defined.

(** ** Slugs: [normalizeSlug] *)

Lemma lower_not_capital (c : ascii) :
  ((65 <=? nat_of_ascii (lower c)) && (nat_of_ascii (lower c) <=? 90))%nat = false.
Proof. destruct c as [[] [] [] [] [] [] [] []]; reflexivity. Qed.

Lemma lower_small (c : ascii) :
  ((65 <=? nat_of_ascii c) && (nat_of_ascii c <=? 90))%nat = false -> lower c = c.
Proof. intros H. unfold lower. cbv zeta. now rewrite H. Qed.

Lemma lower_capital (c : ascii) :
  ((65 <=? nat_of_ascii c) && (nat_of_ascii c <=? 90))%nat = true ->
  lower c = ascii_of_nat (nat_of_ascii c + 32)
  /\ lower (ascii_of_nat (nat_of_ascii c + 32)) = ascii_of_nat (nat_of_ascii c + 32).
Proof.
  destruct c as [[] [] [] [] [] [] [] []]; intros H; try discriminate H; split; reflexivity.
Qed.

Lemma dash_spaces_no_space (in_run : bool) (s : list ascii) :
  Forall (fun c => is_space c = false) (dash_spaces in_run s).
Proof.
  revert in_run. induction s as [|c s IH]; intros in_run; simpl; [constructor|].
  destruct (is_space c) eqn:E.
  - destruct in_run; [apply IH|]. constructor; [reflexivity | apply IH].
  - constructor; [exact E | apply IH].
Qed.

Lemma dash_spaces_Forall (P : ascii -> Prop) (in_run : bool) (s : list ascii) :
  P "-"%char -> Forall P s -> Forall P (dash_spaces in_run s).
Proof.
  intros Hdash. revert in_run. induction s as [|c s IH]; intros in_run H; simpl;
    [constructor|].
  inversion H as [|? ? Hc Hs]; subst.
  destruct (is_space c).
  - destruct in_run; [now apply IH|]. constructor; [exact Hdash | now apply IH].
  - constructor; [exact Hc | now apply IH].
Qed.

Lemma dash_spaces_none (s : list ascii) :
  Forall (fun c => is_space c = false) s -> dash_spaces false s = s.
Proof.
  induction s as [|c s IH]; intros H; simpl; [reflexivity|].
  inversion H as [|? ? Hc Hs]; subst. rewrite Hc. f_equal. now apply IH.
Qed.

Lemma filter_all {A : Type} (f : A -> bool) (l : list A) :
  Forall (fun x => f x = true) l -> List.filter f l = l.
Proof.
  induction l as [|x l IH]; intros H; simpl; [reflexivity|].
  inversion H as [|? ? Hx Hl]; subst. rewrite Hx. f_equal. now apply IH.
Qed.

Lemma filter_Forall {A : Type} (f : A -> bool) (P : A -> Prop) (l : list A) :
  Forall P l -> Forall P (List.filter f l).
Proof.
  intros H. apply List.Forall_forall. intros x Hx. apply filter_In in Hx as [Hx _].
  exact (proj1 (List.Forall_forall _ _) H x Hx).
Qed.

(** A slug holds no blank, no apostrophe and no capital letter (none of the
    characters [A] to [Z], codes 65 to 90); it is its own slug, so that a
    connection may name a song by its title or by its slug; and a capital
    letter anywhere in a title gives the same slug as its small letter (the
    character 32 codes further on). *)
Theorem normalizeSlug_slug (title : string) :
  Forall (fun c => is_space c = false /\ c <> "'"%char
                   /\ ((65 <=? nat_of_ascii c) && (nat_of_ascii c <=? 90))%nat = false)
         (list_ascii_of_string (normalizeSlug title))
  /\ normalizeSlug (normalizeSlug title) = normalizeSlug title
  /\ (forall (before after : string) (c : ascii),
        ((65 <=? nat_of_ascii c) && (nat_of_ascii c <=? 90))%nat = true ->
        normalizeSlug (before ++ String c after)
        = normalizeSlug (before ++ String (ascii_of_nat (nat_of_ascii c + 32)) after)).
Proof.
  split; [|split].
  - unfold normalizeSlug. rewrite list_ascii_of_string_of_list_ascii.
    apply List.Forall_forall. intros c Hc. apply filter_In in Hc as [Hc Hq].
    { pose proof (proj1 (List.Forall_forall _ _)
                        (dash_spaces_no_space false
                           (map lower (list_ascii_of_string title))) c Hc) as Hs.
      assert (Forall (fun c => ((65 <=? nat_of_ascii c)
                                && (nat_of_ascii c <=? 90))%nat = false)
                     (dash_spaces false (map lower (list_ascii_of_string title)))) as Hcap.
      { apply dash_spaces_Forall; [reflexivity|]. apply List.Forall_forall.
        intros c' Hc'. apply in_map_iff in Hc' as (c0 & <- & _). apply lower_not_capital. }
      split; [exact Hs|].
      split; [apply negb_true_iff, Ascii.eqb_neq in Hq; exact Hq|].
      exact (proj1 (List.Forall_forall _ _) Hcap c Hc). }
  - unfold normalizeSlug at 2 3.
    set (l := List.filter (fun c => negb (Ascii.eqb c "'"))
                          (dash_spaces false (map lower (list_ascii_of_string title)))).
    assert (Forall (fun c => is_space c = false) l) as Hspace
        by (apply filter_Forall, dash_spaces_no_space).
    assert (Forall (fun c => lower c = c) l) as Hlower.
    { apply filter_Forall, dash_spaces_Forall; [reflexivity|]. apply List.Forall_forall.
      intros c Hc. apply in_map_iff in Hc as (c' & <- & _).
      apply lower_small, lower_not_capital. }
    assert (Forall (fun c => negb (Ascii.eqb c "'") = true) l) as Hquote.
    { apply List.Forall_forall. intros c Hc. now apply filter_In in Hc as [_ Hc]. }
    unfold normalizeSlug. rewrite list_ascii_of_string_of_list_ascii.
    assert (map lower l = l) as ->.
    { clear -Hlower. induction l as [|c l IH]; [reflexivity|].
      inversion Hlower as [|? ? Hc Hl]; subst. simpl. rewrite Hc. f_equal. now apply IH. }
    rewrite (dash_spaces_none l Hspace), (filter_all _ l Hquote). reflexivity.
  - intros before after c Hc. destruct (lower_capital c Hc) as [H1 H2].
    unfold normalizeSlug. do 2 f_equal.
    assert (forall a b : string,
               list_ascii_of_string (a ++ b)
               = (list_ascii_of_string a ++ list_ascii_of_string b)%list) as Happ.
    { intros a b. induction a as [|x a IH]; simpl; [reflexivity|]. now rewrite IH. }
    rewrite !Happ, !map_app. cbn [list_ascii_of_string map]. now rewrite H1, H2.
Qed.

(** ** What the store remembers: [goBack] and [clear] *)

Lemma goBack_storage (w : World) : localStorage (fst (goBack w)) = localStorage w.
Proof. unfold goBack. cbv zeta. destruct (last (history (state w))); reflexivity. Qed.

Lemma reload_after_setCurrentSong (catalog : Catalog) (x : string) (w : World) :
  playedSongs (state (construct (localStorage (setCurrentSong catalog x w))))
  = playedSongs (state (setCurrentSong catalog x w)).
Proof.
  change (localStorage (setCurrentSong catalog x w))
    with (localStorage (saveToStorage (with_state w (state (setCurrentSong catalog x w))))).
  unfold construct. rewrite load_after_save. reflexivity.
Qed.

(** [goBack] does not save.  In the situation of the round trip ([x0]
    current, set and in the catalog, a recommendation pending,
    [setCurrentSong(x)] and then [goBack()]), [x0] is no longer marked played
    in the object, but the store still has it: a state constructed from the
    store at that point has [x0] played, and [isPlayable(x0)] is false
    there. *)
Theorem goBack_not_saved (catalog : Catalog) (w : World) (x x0 : string)
        (next : SongRef) (entry : CatalogEntry) :
  currentSongSlug (state w) = Some x0 -> x0 <> "" ->
  nextSong (state w) = Some next ->
  catalog !! x0 = Some entry ->
  let w2 := fst (goBack (setCurrentSong catalog x w)) in
  let reloaded := construct (localStorage w2) in
  (x0 ∉ playedSongs (state w2))
  /\ localStorage w2 = localStorage (setCurrentSong catalog x w)
  /\ (x0 ∈ playedSongs (state reloaded))
  /\ isPlayable catalog x0 reloaded = false.
Proof.
  intros Hcur Hne Hnext Hcat. cbv zeta.
  pose proof (set_slug_nonempty x0 Hne) as Hset.
  assert (history (state (setCurrentSong catalog x w))
          = (history (state w)
               ++ [{| songSlug := Some x0; songTitle := title entry;
                      viaMusician := viaMusician next |}])%list) as Hh
      by (rewrite setCurrentSong_history;
          now rewrite Hcur, Hnext, Hset, (lookupCatalog_own _ _ _ Hcat)).
  assert (x0 ∈ playedSongs (state (construct (localStorage
                                      (fst (goBack (setCurrentSong catalog x w))))))) as Hin.
  { rewrite goBack_storage, reload_after_setCurrentSong, setCurrentSong_played.
    rewrite Hcur, Hset. apply elem_of_union_l, elem_of_singleton_2. reflexivity. }
  split.
  - rewrite (goBack_snoc _ _ _ Hh). cbn [fst state with_state playedSongs songSlug].
    intros H. apply elem_of_difference in H as [_ H]. apply H.
    apply elem_of_singleton_2. reflexivity.
  - split; [apply goBack_storage|]. split; [exact Hin|].
    unfold isPlayable. rewrite (bool_decide_eq_true_2 _ Hin). cbn [negb].
    now rewrite andb_false_r.
Qed.

(** On [Examples.followingWorld]: play [c], go back to [b]. *)
Lemma goBack_not_saved_witness :
  let w2 := fst (goBack (setCurrentSong Examples.abcCatalog "c" Examples.followingWorld)) in
  ("b" ∉ playedSongs (state w2))
  /\ ("b" ∈ playedSongs (state (construct (localStorage w2)))).
Proof.
  cbv zeta.
  pose proof (goBack_not_saved Examples.abcCatalog Examples.followingWorld "c" "b"
                {| songSlug := Some "c"; songTitle := VStr "C"; viaMusician := "Alice" |}
                {| title := VStr "B" |} eq_refl ltac:(discriminate) eq_refl eq_refl) as H.
  cbv zeta in H. destruct H as (H1 & _ & H3 & _).
  split; [exact H1 | exact H3].
Defined.

(** [clear] empties the object (only [followMode] stays as it was), removes
    the stored record and tells the observer once; a state constructed from
    the store afterwards is the initial one whatever was stored before, and
    other keys of the store are untouched. *)
Theorem clear_forgets (w : World) :
  state (clear w)
  = {| followingMusician := None; playedSongs := ∅; currentSongSlug := None;
       followMode := followMode (state w); history := []; nextSong := None;
       queue := [] |}
  /\ events (clear w) = (events w ++ [StateChange None None])%list
  /\ localStorage (clear w) !! storageKey = None
  /\ (forall k, k <> storageKey -> localStorage (clear w) !! k = localStorage w !! k)
  /\ state (construct (localStorage (clear w))) = initialState
  /\ snd (loadFromStorage (clear w)) = VNull.
Proof.
  assert (localStorage (clear w) !! storageKey = None) as Hnone
      by (cbn [clear emit localStorage]; apply lookup_delete_eq).
  split; [reflexivity|]. split; [reflexivity|]. split; [exact Hnone|].
  split; [intros k Hk; cbn [clear emit localStorage]; now apply lookup_delete_ne|].
  unfold construct, loadFromStorage. cbn [localStorage]. cbn [localStorage] in Hnone.
  split.
  - unfold clear, emit in Hnone |- *. cbn [localStorage] in Hnone |- *.
    now rewrite Hnone.
  - unfold clear, emit in Hnone |- *. cbn [localStorage] in Hnone |- *.
    now rewrite Hnone.
Qed.

(** ** The static catalog: [getMusicianConnections] *)

Import StaticCatalog.

Lemma list_ascii_of_string_app (a b : string) :
  list_ascii_of_string (a ++ b) = (list_ascii_of_string a ++ list_ascii_of_string b)%list.
Proof. induction a as [|c a IH]; simpl; [reflexivity|]. now rewrite IH. Qed.

Lemma skip_spaces_app (l : list ascii) (c : ascii) (t : list ascii) :
  is_space c = false ->
  skip_spaces (l ++ c :: t) = (skip_spaces l ++ c :: t)%list.
Proof.
  intros Hc. induction l as [|a l IH]; simpl; [now rewrite Hc|].
  destruct (is_space a); [exact IH | reflexivity].
Qed.

Lemma skip_spaces_In (l : list ascii) (c : ascii) :
  In c (skip_spaces l) -> In c l.
Proof.
  induction l as [|a l IH]; simpl; [tauto|].
  destruct (is_space a); [intros H; right; now apply IH | tauto].
Qed.

Lemma parenthetical_head (s : list ascii) :
  parenthetical s = true -> exists r, skip_spaces s = "("%char :: r.
Proof.
  unfold parenthetical. destruct (skip_spaces s) as [|a r]; [discriminate|].
  destruct a as [[] [] [] [] [] [] [] []]; try discriminate. intros _. now exists r.
Qed.

Lemma closes_at_end_snoc (i : list ascii) :
  Forall (fun c => c <> ")"%char) i -> closes_at_end (i ++ [")"%char]) = true.
Proof.
  induction i as [|c i IH]; intros H; [reflexivity|].
  inversion H as [|? ? Hc Hi]; subst.
  assert (negb (Ascii.eqb c ")") = true) as Hn by (apply negb_true_iff, Ascii.eqb_neq, Hc).
  specialize (IH Hi). destruct i as [|b i].
  - simpl. now rewrite Hn.
  - change (negb (Ascii.eqb c ")") && closes_at_end ((b :: i) ++ [")"%char]) = true).
    now rewrite Hn, IH.
Qed.

Lemma strip_parenthetical_match (t : list ascii) :
  parenthetical t = true -> strip_parenthetical t = [].
Proof. intros H. destruct t; cbn [strip_parenthetical]; now rewrite H. Qed.

Lemma strip_parenthetical_suffix (pre : list ascii) (c : ascii) (t : list ascii) :
  ~ In "("%char pre -> c <> "("%char -> is_space c = false ->
  parenthetical t = true ->
  strip_parenthetical (pre ++ c :: t) = (pre ++ [c])%list.
Proof.
  intros Hpre Hc Hs Ht.
  assert (forall l, ~ In "("%char l -> parenthetical (l ++ c :: t) = false) as Hno.
  { intros l Hl. destruct (parenthetical (l ++ c :: t)) eqn:E; [|reflexivity].
    apply parenthetical_head in E as [r E]. rewrite (skip_spaces_app l c t Hs) in E.
    destruct (skip_spaces l) as [|a l'] eqn:El.
    - injection E as E _. congruence.
    - injection E as E _. exfalso. apply Hl, skip_spaces_In. rewrite El, E. now left. }
  induction pre as [|a pre IH].
  - pose proof (Hno [] ltac:(tauto)) as H0.
    change ([] ++ c :: t)%list with (c :: t) in H0 |- *.
    cbn [strip_parenthetical]. rewrite H0.
    now rewrite (strip_parenthetical_match t Ht).
  - change ((a :: pre) ++ c :: t)%list with (a :: (pre ++ c :: t))%list.
    cbn [strip_parenthetical].
    change (a :: (pre ++ c :: t))%list with ((a :: pre) ++ c :: t)%list.
    rewrite (Hno (a :: pre) Hpre). simpl app. f_equal. apply IH.
    intros H. apply Hpre. now right.
Qed.

Lemma strip_parenthetical_none (s : list ascii) :
  ~ In "("%char s -> strip_parenthetical s = s.
Proof.
  induction s as [|a s IH]; intros H.
  - reflexivity.
  - cbn [strip_parenthetical].
    assert (parenthetical (a :: s) = false) as ->.
    { destruct (parenthetical (a :: s)) eqn:E; [|reflexivity].
      apply parenthetical_head in E as [r E]. exfalso. apply H, skip_spaces_In.
      rewrite E. now left. }
    f_equal. apply IH. intros Hin. apply H. now right.
Qed.

(** The instrument in parentheses does not matter: for a name without an
    opening parenthesis that does not end in a blank, and an instrument
    without a closing parenthesis, ["name (instrument)"] is looked up as
    ["name"]. *)
Theorem instrument_suffix_ignored (connections : list (string * list Connection))
        (name instrument : string) :
  ~ In "("%char (list_ascii_of_string name) ->
  (forall pre c, list_ascii_of_string name = (pre ++ [c])%list -> is_space c = false) ->
  ~ In ")"%char (list_ascii_of_string instrument) ->
  getMusicianConnections connections (name ++ " (" ++ instrument ++ ")")
  = getMusicianConnections connections name.
Proof.
  intros Hname Hend Hinstr.
  assert (cleanName (name ++ " (" ++ instrument ++ ")") = cleanName name) as Hclean.
  { unfold cleanName. f_equal. rewrite !list_ascii_of_string_app.
    rewrite (strip_parenthetical_none _ Hname).
    set (tail := (list_ascii_of_string " (" ++ list_ascii_of_string instrument
                  ++ list_ascii_of_string ")")%list).
    assert (parenthetical tail = true) as Ht.
    { unfold parenthetical. simpl. apply closes_at_end_snoc.
      apply List.Forall_forall. intros c Hc E. apply Hinstr. now rewrite <- E. }
    clearbody tail.
    remember (list_ascii_of_string name) as n eqn:En. clear En.
    induction n as [|c n _] using rev_ind.
    - now apply strip_parenthetical_match.
    - rewrite <- app_assoc. change ([c] ++ tail)%list with (c :: tail).
      apply strip_parenthetical_suffix.
      + intros H. apply Hname, in_or_app. now left.
      + intros ->. apply Hname, in_or_app. right. now left.
      + now apply (Hend n c).
      + exact Ht. }
  unfold getMusicianConnections. cbv zeta. now rewrite Hclean.
Qed.

(** ["Bob Jones (banjo)"] on [Examples.bandConnections]. *)
Lemma instrument_suffix_ignored_witness :
  getMusicianConnections Examples.bandConnections "Bob Jones (banjo)"
  = [ {| song := "b"; context := "" |}; {| song := "c"; context := "" |} ].
Proof.
  change (getMusicianConnections Examples.bandConnections
            ("Bob Jones" ++ " (" ++ "banjo" ++ ")")
          = getMusicianConnections Examples.bandConnections "Bob Jones").
  apply instrument_suffix_ignored.
  - simpl. intuition discriminate.
  - intros pre c H. apply (f_equal (@rev ascii)) in H. rewrite rev_app_distr in H.
    simpl in H. injection H as <- _. reflexivity.
  - simpl. intuition discriminate.
Defined.

Lemma includes_nil (s : list ascii) : includes s [] = true.
Proof. destruct s; reflexivity. Qed.

Lemma find_unique_key {B : Type} (l : list (string * B)) (k : string) (v : B) :
  List.NoDup (map fst l) -> In (k, v) l ->
  find (fun kv => String.eqb (fst kv) k) l = Some (k, v).
Proof.
  induction l as [|[k0 v0] l IH]; intros Hnd Hin; [contradiction|].
  inversion Hnd as [|? ? Hk0 Hnd']; subst. simpl.
  destruct Hin as [[= -> ->]|Hin].
  - now rewrite String.eqb_refl.
  - destruct (String.eqb_spec k0 k) as [->|_]; [|now apply IH].
    exfalso. apply Hk0. apply in_map_iff. now exists (k, v).
Qed.

(** Two edges of the lookup.  The musician whose name is the cleaned name is
    answered with its own connections, also when an earlier entry would match
    partially.  A name that cleans to the empty string (blank, or only a
    parenthetical such as ["(banjo)"]) is answered, when no entry has the
    empty name, with the connections of the first musician: every name
    includes the empty first word. *)
Theorem connections_lookup_edges (connections : list (string * list Connection))
        (musicianName : string) :
  (forall exact,
      List.NoDup (map fst connections) ->
      In (string_of_list_ascii (cleanName musicianName), exact) connections ->
      getMusicianConnections connections musicianName = exact)
  /\ (forall oracleName first rest,
        cleanName musicianName = [] ->
        connections = (oracleName, first) :: rest ->
        ~ In "" (map fst connections) ->
        getMusicianConnections connections musicianName = first).
Proof.
  split.
  - intros exact Hnd Hin. unfold getMusicianConnections. cbv zeta.
    now rewrite (find_unique_key _ _ _ Hnd Hin).
  - intros oracleName first rest Hclean -> Hno.
    unfold getMusicianConnections. cbv zeta. rewrite Hclean.
    assert (find (fun kv : string * list Connection =>
                    String.eqb (fst kv) (string_of_list_ascii []))
                 ((oracleName, first) :: rest) = None) as ->.
    { destruct (find _ _) as [[k v]|] eqn:E; [|reflexivity].
      apply find_some in E as [Hin Hk]. cbn [fst] in Hk. apply String.eqb_eq in Hk.
      exfalso. apply Hno. apply in_map_iff. exists (k, v). now split. }
    cbn [find fst]. unfold partialMatch. cbn [first_word].
    now rewrite includes_nil, orb_true_r.
Qed.

(** ["(banjo)"] on [Examples.bandConnections] is answered with Alice Smith's
    connections. *)
Lemma connections_lookup_edges_witness :
  getMusicianConnections Examples.bandConnections "(banjo)"
  = [ {| song := "a"; context := "" |} ].
Proof.
  apply (proj2 (connections_lookup_edges Examples.bandConnections "(banjo)")
               "Alice Smith" _
               [("Bob Jones", [ {| song := "b"; context := "" |};
                                {| song := "c"; context := "" |} ])]).
  - reflexivity.
  - reflexivity.
  - simpl. intuition discriminate.
Defined.
